(** * DeepJ dataset pipeline: windowing, augmentation, progress labels,
      batching and the train/validation split ([dataset.py]).

    The development is a shallow embedding of [dataset.py].  Python integers
    are [Z] (or [nat] where the code only ever counts upwards from zero),
    event sequences are [list Z], the sounding-note set of the window
    generator is a [gset Z], torch tensors are a shape together with their
    row-major contents, and the module-level random source is threaded
    explicitly through every function that draws from it. *)

From Stdlib Require Import ZArith QArith Qround Lia SpecFloat.
From stdpp Require Import base decidable numbers option list sets gmap strings.

Close Scope Q_scope.
Local Open Scope Z_scope.

(** ** Configuration constants

    [constants.py] is imported with [from constants import *]; the values
    the pipeline reads from it are taken as parameters. *)

Class Constants := {
  NOTE_ON_OFFSET : Z;
  NOTE_OFF_OFFSET : Z;
  TIME_OFFSET : Z;
  NUM_NOTES : Z;
  TIME_QUANTIZATION : Z;
  CATEGORY_LEVEL : nat
}.

(** Modelled from the spec: the layout of the event codes fixed by
    [constants.py].  The three ranges NoteOn, NoteOff, TimeShift are
    contiguous and disjoint, and each of them is inhabited. *)
Definition contiguous_layout `{Constants} : Prop :=
  NOTE_OFF_OFFSET = NOTE_ON_OFFSET + NUM_NOTES ∧
  TIME_OFFSET = NOTE_OFF_OFFSET + NUM_NOTES ∧
  0 < NUM_NOTES ∧ 0 < TIME_QUANTIZATION.

(** ** Exceptions and the random source *)

Inductive exn :=
  | ValueError
  | AssertionError
  | IndexError
  | ZeroDivisionError
  | RuntimeError
  | TypeError
  | OverflowError.

(** The shared random source is an unbounded supply of raw integers. *)
Definition rng := nat → Z.

Definition rng_tail (g : rng) : rng := λ n, g (S n).

(** The source whose next raw integer is [v] and which goes on as [g]. *)
Definition rng_cons (v : Z) (g : rng) : rng :=
  λ n, match n with O => v | S n' => g n' end.

(** [raise msg] where [msg] is a plain string: exceptions must derive from
    [BaseException], so what the statement raises is a [TypeError]. *)
Definition raise_str (msg : string) : exn := TypeError.

(** Computations that may raise and that consume the random source. *)
Definition M (A : Type) : Type := rng → exn + (A * rng).

Definition ret {A} (a : A) : M A := λ g, inr (a, g).
Definition raise {A} (e : exn) : M A := λ _, inl e.
Definition bind {A B} (m : M A) (k : A → M B) : M B :=
  λ g, match m g with
       | inl e => inl e
       | inr (a, g') => k a g'
       end.
Definition lift {A} (r : exn + A) : M A :=
  λ g, match r with inl e => inl e | inr a => inr (a, g) end.

Notation "'let*' x ':=' m 'in' k" := (bind m (λ x, k))
  (at level 10, x pattern, m at level 100, k at level 200).

(** [random._randbelow n]: a draw below [n], for [n > 0]. *)
Definition randbelow (n : Z) : M Z := λ g, inr (g 0%nat mod n, rng_tail g).

(** [random.randint a b]: an integer in the inclusive range [a .. b];
    an empty range raises [ValueError]. *)
Definition randint (a b : Z) : M Z :=
  if bool_decide (b - a + 1 ≤ 0) then raise ValueError
  else let* k := randbelow (b - a + 1) in ret (a + k).

(** [x[i], x[j] = x[j], x[i]] *)
Definition swap {A} (x : list A) (i j : nat) : list A :=
  match x !! i, x !! j with
  | Some a, Some b => <[i:=b]> (<[j:=a]> x)
  | _, _ => x
  end.

(** [random.shuffle x]: for [i] from [len(x) - 1] down to [1], swap [x[i]]
    with [x[j]] for a [j] drawn below [i + 1].  [shuffle_from n x] runs the
    iterations [i = n, n - 1, ..., 1]. *)
Fixpoint shuffle_from {A} (n : nat) (x : list A) : M (list A) :=
  match n with
  | O => ret x
  | S n' =>
      let* j := randbelow (Z.of_nat n + 1) in
      shuffle_from n' (swap x n (Z.to_nat j))
  end.

Definition shuffle {A} (x : list A) : M (list A) :=
  shuffle_from (length x - 1)%nat x.

(** ** Python sequences *)

Definition len {A} (l : list A) : Z := Z.of_nat (length l).

(** A slice bound [k] of a sequence of length [n], as Python normalises it:
    a negative bound counts from the end, and every bound is clipped to
    [0 .. n]. *)
Definition slice_index (k n : Z) : Z :=
  if bool_decide (k < 0) then Z.max 0 (k + n) else Z.min k n.

(** [l[start:stop]]; [None] stands for an omitted bound. *)
Definition slice {A} (l : list A) (start stop : option Z) : list A :=
  let a := from_option (λ k, slice_index k (len l)) 0 start in
  let b := from_option (λ k, slice_index k (len l)) (len l) stop in
  take (Z.to_nat (b - a)) (drop (Z.to_nat a) l).

(** [l[i]] for a list position [i] that is not negative. *)
Definition getitem {A} (l : list A) (i : nat) : exn + A :=
  match l !! i with
  | Some a => inr a
  | None => inl IndexError
  end.

(** ** Tensors: a shape and the row-major contents *)

Record tensor := Tensor { shape : list nat; data : list Z }.

Definition LongTensor (l : list Z) : tensor := Tensor [length l] l.

(** [torch.FloatTensor(a)] of a two-dimensional array with [n] rows of width
    [c]; the entries of the progress array are [0.0] and [1.0], kept as the
    integers [0] and [1]. *)
Definition FloatTensor (n c : nat) (rows : list (list Z)) : tensor :=
  Tensor [n; c] (concat rows).

Definition stride (dims : list nat) : nat := foldr Nat.mul 1%nat dims.

(** [t[start:stop]] along the leading axis. *)
Definition tensor_slice (t : tensor) (start stop : Z) : exn + tensor :=
  match shape t with
  | [] => inl IndexError
  | n :: rest =>
      let a := slice_index start (Z.of_nat n) in
      let b := slice_index stop (Z.of_nat n) in
      let k := Z.to_nat (b - a) in
      inr (Tensor (k :: rest)
             (take (k * stride rest) (drop (Z.to_nat a * stride rest) (data t))))
  end.

(** Row [i] of a two-dimensional tensor. *)
Definition tensor_row (t : tensor) (i : nat) : list Z :=
  match shape t with
  | [_; c] => take c (drop (i * c) (data t))
  | _ => []
  end.

Definition shape_eqb (s1 s2 : list nat) : bool := bool_decide (s1 = s2).

(** [torch.stack(ts)]: a new leading axis; the list must not be empty and
    all tensors must have one shape. *)
Definition stack (ts : list tensor) : exn + tensor :=
  match ts with
  | [] => inl RuntimeError
  | t :: rest =>
      if forallb (λ u, shape_eqb (shape u) (shape t)) rest
      then inr (Tensor (length ts :: shape t) (concat (data <$> ts)))
      else inl RuntimeError
  end.

(** ** Python floats

    A float is an IEEE 754 double: 53 bits of precision, infinities at
    exponent 1024, products rounded to nearest, ties to even. *)

Definition float : Type := spec_float.

Definition float_mul (x y : float) : float := SFmul 53 1024 x y.

(** The conversion of an [int] operand to [float]; an [int] beyond the
    doubles raises [OverflowError]. *)
Definition float_of_int (n : Z) : exn + float :=
  match binary_normalize 53 1024 n 0 false with
  | S754_infinity _ => inl OverflowError
  | x => inr x
  end.

(** [n * x] for an [int] [n] and a [float] [x]. *)
Definition int_mul_float (n : Z) (x : float) : exn + float :=
  match float_of_int n with
  | inl e => inl e
  | inr y => inr (float_mul y x)
  end.

(** [int(math.ceil(x))]: a NaN raises [ValueError], an infinity
    [OverflowError]. *)
Definition math_ceil (x : float) : exn + Z :=
  match x with
  | S754_nan => inl ValueError
  | S754_infinity _ => inl OverflowError
  | S754_zero _ => inr 0
  | S754_finite s m e =>
      let v := if s then Z.neg m else Z.pos m in
      inr (if bool_decide (0 ≤ e) then v * 2 ^ e else - ((- v) / 2 ^ (- e)))
  end.

(** [int(math.ceil(n * x))] *)
Definition ceil_of_product (n : Z) (x : float) : exn + Z :=
  match int_mul_float n x with
  | inl e => inl e
  | inr product => math_ceil product
  end.

(** The float that a decimal or rational literal [p/q] denotes, the double
    nearest to it (for [p] and [q] below [2^53]). *)
Definition float_literal (x : Q) : float :=
  SFdiv 53 1024 (binary_normalize 53 1024 (Qnum x) 0 false)
                (binary_normalize 53 1024 (Z.pos (Qden x)) 0 false).

(** The number that a finite float stands for. *)
Definition float_value (x : float) : Q :=
  match x with
  | S754_finite s m e =>
      let v := if s then Z.neg m else Z.pos m in
      if bool_decide (0 ≤ e) then inject_Z (v * 2 ^ e)
      else Qmake v (Z.to_pos (2 ^ (- e)))
  | _ => inject_Z 0
  end.

Definition float_finite (x : float) : bool :=
  match x with
  | S754_zero _ | S754_finite _ _ _ => true
  | _ => false
  end.

Section Dataset.
Context `{K : Constants}.

(** ** Progress labels *)

(** [progress[start:stop, c] = 1] on the array [progress] of rows. *)
Definition assign_rows (progress : list (list Z)) (start stop : option Z) (c : nat)
  : list (list Z) :=
  let n := len progress in
  let a := from_option (λ k, slice_index k n) 0 start in
  let b := from_option (λ k, slice_index k n) n stop in
  imap (λ k row, if bool_decide (a ≤ Z.of_nat k < b) then <[c:=1]> row else row)
       progress.

(** The array that [progress_tensor] fills in, for a sequence of [n] events. *)
Definition progress_array (n : nat) : list (list Z) :=
  let step := Z.of_nat n / Z.of_nat CATEGORY_LEVEL in
  let progress := replicate n (replicate CATEGORY_LEVEL 0) in
  let progress :=
    foldl (λ progress c,
             let start := Z.of_nat c * step in
             let end_ := start + step in
             assign_rows progress (Some start) (Some end_) c)
          progress (seq 0 CATEGORY_LEVEL) in
  assign_rows progress (Some (- (Z.of_nat n mod Z.of_nat CATEGORY_LEVEL))) None
              (CATEGORY_LEVEL - 1)%nat.

Definition progress_tensor (sequence : list Z) : exn + tensor :=
  if bool_decide (CATEGORY_LEVEL = 0%nat) then inl ZeroDivisionError
  else inr (FloatTensor (length sequence) CATEGORY_LEVEL
                        (progress_array (length sequence))).

(** ** The window generator of [random_subseq] *)

(** The code of the padding event, the longest silence. *)
Definition PAD : Z := TIME_OFFSET + TIME_QUANTIZATION - 1.

Record gen_state := GenState {
  note_ons : gset Z;
  i : nat;
  current : nat
}.

(** What one iteration of the [while] loop does: it yields an event, or it
    skips a source event ([continue]). *)
Inductive action := Yield (evt : Z) | Continue.

Section Generator.
Variables (sequence : list Z) (seq_len : Z).

Definition iteration (st : gen_state) : action * gen_state :=
  if bool_decide (length sequence ≤ current st)%nat then
    (Yield PAD, GenState (note_ons st) (S (i st)) (S (current st)))
  else
    let evt := sequence !!! current st in
    if bool_decide (evt < NOTE_OFF_OFFSET + NUM_NOTES) then
      if bool_decide (evt >= NOTE_OFF_OFFSET) then
        let note := evt - NOTE_OFF_OFFSET in
        if bool_decide (note ∉ note_ons st) then
          (Continue, GenState (note_ons st) (i st) (S (current st)))
        else
          (Yield evt,
           GenState (note_ons st ∖ {[note]}) (S (i st)) (S (current st)))
      else
        (Yield evt,
         GenState ({[evt - NOTE_ON_OFFSET]} ∪ note_ons st) (S (i st)) (S (current st)))
    else
      (Yield evt, GenState (note_ons st) (S (i st)) (S (current st))).

Definition yielded (a : action) (w : list Z) : list Z :=
  match a with Yield evt => evt :: w | Continue => w end.

(** The [while i < seq_len] loop, run for at most [fuel] iterations.  The
    result is the list of yielded events, the state the loop leaves and the
    number of iterations it made; [None] when [fuel] iterations were not
    enough. *)
Fixpoint run (fuel : nat) (st : gen_state) : option (list Z * gen_state * nat) :=
  if bool_decide (Z.of_nat (i st) < seq_len) then
    match fuel with
    | O => None
    | S fuel' =>
        let '(a, st') := iteration st in
        match run fuel' st' with
        | Some (w, fin, n) => Some (yielded a w, fin, S n)
        | None => None
        end
    end
  else Some ([], st, O).

Definition gen_init (index : nat) : gen_state := GenState ∅ 0 index.

(** The events of [generator()], in the order they are yielded. *)
Definition generator (index : nat) : list Z :=
  match run (length sequence + Z.to_nat seq_len) (gen_init index) with
  | Some (w, _, _) => w
  | None => []
  end.

Definition random_subseq : M (list Z * Z * Z) :=
  let* index := randint 0 (len sequence - 1 - seq_len) in
  let start_index := index in
  let end_index := index + seq_len in
  ret (generator (Z.to_nat index), start_index, end_index).

End Generator.

(** ** Augmentation *)

Definition transpose_evt (transpose evt : Z) : Z :=
  if bool_decide (evt < TIME_OFFSET) then evt + transpose else evt.

Definition augment (sequence : list Z) : M (list Z) :=
  let* transpose := randint (-4) 4 in
  if bool_decide (transpose = 0) then ret sequence
  else ret (transpose_evt transpose <$> sequence).

(** ** Train/validation split *)

Definition dataset : Type := list (list Z) * list Z * list tensor.

Definition assert (b : bool) : M unit :=
  if b then ret tt else raise AssertionError.

(** The index lists [train_indicies] and [val_indicies] that
    [validation_split] computes for [n] sequences.  The fraction [split] is
    a float, as its default [0.05]: [len(r) * split] is a product of
    doubles, and [num_val] the ceiling of that rounded product. *)
Definition split_indicies (n : nat) (split : float) : M (list nat * list nat) :=
  let* r := shuffle (seq 0 n) in
  let* num_val := lift (ceil_of_product (len r) split) in
  let train_indicies := slice r None (Some (- num_val)) in
  let val_indicies := slice r (Some (- num_val)) None in
  let* _ := assert (bool_decide (len val_indicies = num_val)) in
  let* _ := assert (bool_decide (len train_indicies = len r - num_val)) in
  ret (train_indicies, val_indicies).

(** [[l[i] for i in indices]] *)
Definition gather {A} (l : list A) (indices : list nat) : exn + list A :=
  foldr (λ i acc,
           match getitem l i, acc with
           | inr a, inr rest => inr (a :: rest)
           | inl e, _ => inl e
           | _, inl e => inl e
           end) (inr []) indices.

Definition gather3 (data : dataset) (indices : list nat) : exn + dataset :=
  let '(seqs, style_tags, progresses) := data in
  match gather seqs indices, gather style_tags indices, gather progresses indices with
  | inr s, inr t, inr p => inr (s, t, p)
  | inl e, _, _ => inl e
  | _, inl e, _ => inl e
  | _, _, inl e => inl e
  end.

Definition validation_split (data : dataset) (split : float)
  : M (dataset * dataset) :=
  let '(seqs, style_tags, progresses) := data in
  let* (train_indicies, val_indicies) := split_indicies (length seqs) split in
  let* train := lift (gather3 data train_indicies) in
  let* val := lift (gather3 data val_indicies) in
  ret (train, val).

(** ** Sampling and batching *)

(** Modelled from the spec: [util.gen_to_tensor] is not in src/; it
    materialises a generator of events as a one-dimensional long tensor. *)
Definition gen_to_tensor (events : list Z) : tensor := LongTensor events.

Definition sample (data : dataset) (seq_len : Z) : M (tensor * tensor * tensor) :=
  let '(seqs, style_tags, progresses) := data in
  let* seq_id := randint 0 (len seqs - 1) in
  let* sequence := lift (getitem seqs (Z.to_nat seq_id)) in
  let* (subseq, start_index, end_index) := random_subseq sequence seq_len in
  let* progress := lift (getitem progresses (Z.to_nat seq_id)) in
  let* augmented := augment subseq in
  let* progress_slice := lift (tensor_slice progress start_index end_index) in
  ret (gen_to_tensor augmented,
       LongTensor (slice style_tags (Some seq_id) (Some (seq_id + 1))),
       progress_slice).

(** [sampler(data)]: the construction fails on an empty split, otherwise it
    returns the closure [sample]. *)
Definition sampler (data : dataset) : exn + (Z → M (tensor * tensor * tensor)) :=
  let '(seqs, style_tags, progresses) := data in
  if bool_decide (len seqs = 0) then
    inl (raise_str "Insufficient training data.")
  else inr (sample data).

(** [[sampler(seq_len) for i in range(batch_size)]] *)
Fixpoint draw_samples {A} (sampler : Z → M A) (seq_len : Z) (batch_size : nat)
  : M (list A) :=
  match batch_size with
  | O => ret []
  | S n =>
      let* x := sampler seq_len in
      let* rest := draw_samples sampler seq_len n in
      ret (x :: rest)
  end.

(** The comprehension that stacks the columns of the zipped batch: no columns
    for an empty batch,
    else one stacked tensor per component of the samples. *)
Definition stack_columns (batch : list (tensor * tensor * tensor))
  : exn + list tensor :=
  match batch with
  | [] => inr []
  | _ :: _ =>
      match stack (fst ∘ fst <$> batch), stack (snd ∘ fst <$> batch),
            stack (snd <$> batch) with
      | inr e, inr t, inr p => inr [e; t; p]
      | inl e, _, _ => inl e
      | _, inl e, _ => inl e
      | _, _, inl e => inl e
      end
  end.

Definition batcher (sampler : Z → M (tensor * tensor * tensor))
  (batch_size : Z) (seq_len : Z) : M (list tensor) :=
  let* batch := draw_samples sampler seq_len (Z.to_nat batch_size) in
  lift (stack_columns batch).

(** ** Notions the properties are stated with *)

(** The three kinds of event, as the tests of the generator tell them apart. *)
Inductive event :=
  | NoteOn (note : Z)
  | NoteOff (note : Z)
  | TimeShift (bucket : Z).

Definition classify (evt : Z) : event :=
  if bool_decide (evt < NOTE_OFF_OFFSET + NUM_NOTES) then
    if bool_decide (evt >= NOTE_OFF_OFFSET) then NoteOff (evt - NOTE_OFF_OFFSET)
    else NoteOn (evt - NOTE_ON_OFFSET)
  else TimeShift (evt - TIME_OFFSET).

Definition encode (e : event) : Z :=
  match e with
  | NoteOn note => NOTE_ON_OFFSET + note
  | NoteOff note => NOTE_OFF_OFFSET + note
  | TimeShift bucket => TIME_OFFSET + bucket
  end.

(** The note number [n] of a pitch-bearing event becomes [n + t]. *)
Definition transpose_event (t : Z) (e : event) : event :=
  match e with
  | NoteOn note => NoteOn (note + t)
  | NoteOff note => NoteOff (note + t)
  | TimeShift bucket => TimeShift bucket
  end.

(** Decoding a window: [sounding w] is the set of notes that are open after
    the events of [w]. *)
Definition decode_evt (open : gset Z) (evt : Z) : gset Z :=
  match classify evt with
  | NoteOn note => {[note]} ∪ open
  | NoteOff note => open ∖ {[note]}
  | TimeShift _ => open
  end.

Definition sounding (w : list Z) : gset Z := foldl decode_evt ∅ w.

(** A window decodes without orphans from the open notes [open]: every
    NoteOff it holds closes a note that is open when it is reached. *)
Fixpoint well_opened (open : gset Z) (w : list Z) : Prop :=
  match w with
  | [] => True
  | evt :: w' =>
      (∀ note, classify evt = NoteOff note → note ∈ open) ∧
      well_opened (decode_evt open evt) w'
  end.

(** [n] iterations of the loop body, whatever the loop guard says. *)
Fixpoint iterate_loop (sequence : list Z) (n : nat) (st : gen_state)
  : list Z * gen_state :=
  match n with
  | O => ([], st)
  | S n' =>
      let '(a, st') := iteration sequence st in
      let '(w, fin) := iterate_loop sequence n' st' in
      (yielded a w, fin)
  end.

(** The variant of the loop: source events left plus slots left. *)
Definition variant (sequence : list Z) (seq_len : Z) (st : gen_state) : nat :=
  (length sequence - current st) + Z.to_nat (seq_len - Z.of_nat (i st)).

(** [xs] are the entries of [l] at the positions [indices], in order. *)
Definition picks {A} (l : list A) (indices : list nat) (xs : list A) : Prop :=
  Forall2 (λ i x, l !! i = Some x) indices xs.

Definition picks3 (data : dataset) (indices : list nat) (sub : dataset) : Prop :=
  picks data.1.1 indices sub.1.1 ∧ picks data.1.2 indices sub.1.2 ∧
  picks data.2 indices sub.2.

(** The shapes of one sample for the window length [seq_len]: the events,
    the style tag and the progress slice. *)
Definition sample_shaped (seq_len : Z) (x : tensor * tensor * tensor) : Prop :=
  shape x.1.1 = [Z.to_nat seq_len] ∧ shape x.1.2 = [1%nat] ∧
  shape x.2 = [Z.to_nat seq_len; CATEGORY_LEVEL].

(** [num_val] of [validation_split], for [n] sequences. *)
Definition num_val (n : nat) (split : float) : exn + Z :=
  ceil_of_product (Z.of_nat n) split.

(** A row with a single [1], in column [c]. *)
Definition one_hot (c : nat) : list Z :=
  <[c:=1]> (replicate CATEGORY_LEVEL 0).

(** [step] of [progress_tensor], for [n] events. *)
Definition progress_step (n : nat) : Z := Z.of_nat n / Z.of_nat CATEGORY_LEVEL.

(** The category whose bucket holds row [k]. *)
Definition bucket_of (n k : nat) : nat := Z.to_nat (Z.of_nat k / progress_step n).

(** Row [k] of the progress array after the categories below [m] have been
    assigned. *)
Definition row_after (n m k : nat) : list Z :=
  if bool_decide (Z.of_nat k < Z.of_nat m * progress_step n)
  then one_hot (bucket_of n k)
  else replicate CATEGORY_LEVEL 0.

(** Row [k] of the array [progress_tensor] ends with. *)
Definition progress_row (n k : nat) : list Z :=
  if bool_decide (Z.of_nat n mod Z.of_nat CATEGORY_LEVEL = 0)
  then <[(CATEGORY_LEVEL - 1)%nat:=1]> (one_hot (bucket_of n k))
  else if bool_decide (Z.of_nat k < Z.of_nat CATEGORY_LEVEL * progress_step n)
       then one_hot (bucket_of n k)
       else one_hot (CATEGORY_LEVEL - 1).

End Dataset.

(** ** Loading and flattening the corpus *)

Section Corpus.
Context `{K : Constants}.

(** [SEQ_LEN] of [constants.py], the default window length. *)
Variable SEQ_LEN : Z.

(** Modelled from the spec: [midi_io.load_midi] and [util.get_all_files]
    are not in src/.  What they deliver is an input of the model: for every
    style, in the order of [get_all_files], the outcome of [load_midi] on
    each file, [None] where it raised (the exception is caught and the file
    is skipped) and the event sequence otherwise.  The body of the inner
    loop of [load] keeps [style_seq] and [seq_len_sum]. *)
Definition load_file (acc : list (list Z) * Z) (outcome : option (list Z))
  : list (list Z) * Z :=
  let '(style_seq, seq_len_sum) := acc in
  match outcome with
  | Some sequence =>
      if bool_decide (len sequence >= SEQ_LEN)
      then (style_seq ++ [sequence], seq_len_sum + len sequence)
      else (style_seq, seq_len_sum)
  | None => (style_seq, seq_len_sum)
  end.

(** The body of the outer loop of [load]: the files of one style, the
    [append], and the report of the average [seq_len_sum / len(style_seq)],
    which divides by zero when no file of the style was kept. *)
Definition load_style (style_seqs : list (list (list Z)))
    (files : list (option (list Z))) : exn + list (list (list Z)) :=
  let '(style_seq, seq_len_sum) := foldl load_file ([], 0) files in
  let style_seqs := style_seqs ++ [style_seq] in
  if bool_decide (len style_seq = 0) then inl ZeroDivisionError
  else inr style_seqs.

Definition load (styles : list (list (option (list Z))))
  : exn + list (list (list Z)) :=
  foldl (λ acc files,
           match acc with
           | inl e => inl e
           | inr style_seqs => load_style style_seqs files
           end) (inr []) styles.

(** The files of a style that [load] is meant to keep: those that parse and
    have at least [SEQ_LEN] events, in order. *)
Definition kept (files : list (option (list Z))) : list (list Z) :=
  filter (λ sequence, SEQ_LEN ≤ len sequence) (omap id files).

(** [[f(a) for a in l]] for an [f] that may raise. *)
Definition map_result {A B} (f : A → exn + B) (l : list A) : exn + list B :=
  foldr (λ a acc,
           match f a with
           | inl e => inl e
           | inr b =>
               match acc with
               | inl e => inl e
               | inr bs => inr (b :: bs)
               end
           end) (inr []) l.

(** [process(style_seqs)]: the compositions of all styles in one list, the
    style index of each of them, and their progress tensors. *)
Definition process (style_seqs : list (list (list Z))) : exn + dataset :=
  let seqs := concat style_seqs in
  let style_tags :=
    concat (imap (λ s y, (λ _, Z.of_nat s) <$> y) style_seqs) in
  match map_result progress_tensor seqs with
  | inl e => inl e
  | inr progresses => inr (seqs, style_tags, progresses)
  end.

(** The position in the flattened corpus of composition [j] of style [s]. *)
Definition flat_index (style_seqs : list (list (list Z))) (s j : nat) : nat :=
  (length (concat (take s style_seqs)) + j)%nat.

(** The window that [augment] returns for the drawn transposition [t]. *)
Definition augmented (t : Z) (w : list Z) : list Z :=
  if bool_decide (t = 0) then w else transpose_evt t <$> w.

Definition is_note_off (evt : Z) : bool :=
  match classify evt with NoteOff _ => true | _ => false end.

(** The events of a window that are not a NoteOff. *)
Definition without_note_offs (w : list Z) : list Z :=
  filter (λ evt, is_note_off evt = false) w.

End Corpus.

(** ** The causal convolution layer of [models.py] *)

(** The border modes that the Keras convolution layers accept. *)
Inductive border_mode := Valid | Same | Full.

Definition border_mode_eqb (b1 b2 : border_mode) : bool :=
  match b1, b2 with
  | Valid, Valid | Same, Same | Full, Full => true
  | _, _ => false
  end.

(** The attributes of a [CausalAtrousConvolution1D] that its shape depends
    on; the base class stores the arguments of the constructor under these
    names, [subsample] as the pair [(subsample_length, 1)]. *)
Record conv_layer := ConvLayer {
  nb_filter : Z;
  filter_length : Z;
  layer_border_mode : border_mode;
  subsample : Z * Z;
  atrous_rate : Z;
  causal : bool
}.

(** [CausalAtrousConvolution1D.__init__]: the base class is initialised and
    then the causal mode is checked against the border mode. *)
Definition CausalAtrousConvolution1D (nb_filter filter_length : Z)
    (border : border_mode) (subsample_length atrous_rate : Z) (causal : bool)
  : exn + conv_layer :=
  let self := ConvLayer nb_filter filter_length border (subsample_length, 1)
                        atrous_rate causal in
  if causal && negb (border_mode_eqb border Valid) then inl ValueError
  else inr self.

(** [keras.utils.np_utils.conv_output_length]; an input length that is not
    known is [None], and it stays [None]. *)
Definition conv_output_length (input_length : option Z) (filter_size : Z)
    (border : border_mode) (stride dilation : Z) : exn + option Z :=
  match input_length with
  | None => inr None
  | Some input_length =>
      let dilated_filter_size :=
        filter_size + (filter_size - 1) * (dilation - 1) in
      let output_length :=
        match border with
        | Same => input_length
        | Valid => input_length - dilated_filter_size + 1
        | Full => input_length + dilated_filter_size - 1
        end in
      if bool_decide (stride = 0) then inl ZeroDivisionError
      else inr (Some ((output_length + stride - 1) / stride))
  end.

(** [get_output_shape_for] on an input shape [(batch, length, channels)],
    where a dimension that is not known is [None].  In causal mode the
    padding is added to the input length, which fails on [None]. *)
Definition get_output_shape_for (self : conv_layer)
    (input_shape : option Z * option Z * option Z)
  : exn + (option Z * option Z * Z) :=
  let input_length := input_shape.1.2 in
  let padded :=
    if causal self then
      match input_length with
      | Some l => inr (Some (l + atrous_rate self * (filter_length self - 1)))
      | None => inl TypeError
      end
    else inr input_length in
  match padded with
  | inl e => inl e
  | inr input_length =>
      match conv_output_length input_length (filter_length self)
                               (layer_border_mode self) (subsample self).1
                               (atrous_rate self) with
      | inl e => inl e
      | inr length => inr (input_shape.1.1, length, nb_filter self)
      end
  end.

(** That a sample carries a style tag of the corpus. *)
Definition sample_tagged (style_tags : list Z) (x : tensor * tensor * tensor)
  : Prop :=
  ∃ tag, tag ∈ style_tags ∧ data x.1.2 = [tag].

(** ** A concrete configuration, for examples *)

Definition example_constants : Constants :=
  {| NOTE_ON_OFFSET := 0; NOTE_OFF_OFFSET := 128; TIME_OFFSET := 256;
     NUM_NOTES := 128; TIME_QUANTIZATION := 32; CATEGORY_LEVEL := 3 |}.

(** A raw random source for the examples. *)
Definition example_rng : rng := λ n, Z.of_nat n * 7 + 3.

(** The composition of the end-to-end scenario:
    NoteOn 5, TimeShift 2, NoteOff 5, NoteOn 7. *)
Definition example_composition : list Z := [5; 258; 133; 7].

(** A corpus with a single composition of twenty events, of style [1]. *)
Definition example_corpus : dataset :=
  let sequence := replicate 20 258 in
  ([sequence], [1],
   [FloatTensor 20 3 (@progress_array example_constants 20)]).

(** A corpus of [n] compositions of twenty events; the style tag of a
    composition is its index. *)
Definition example_corpus_of (n : nat) : dataset :=
  (replicate n (replicate 20 258), Z.of_nat <$> seq 0 n,
   replicate n (FloatTensor 20 3 (@progress_array example_constants 20))).

(** A configuration without categories. *)
Definition no_category_constants : Constants :=
  {| NOTE_ON_OFFSET := 0; NOTE_OFF_OFFSET := 128; TIME_OFFSET := 256;
     NUM_NOTES := 128; TIME_QUANTIZATION := 32; CATEGORY_LEVEL := 0 |}.

(** The files of two styles: the first has a file that does not parse, one
    that is too short for windows of four events and one that is kept; the
    second has one file, of exactly four events. *)
Definition example_files : list (list (option (list Z))) :=
  [[None; Some [5; 258]; Some [5; 258; 133; 7; 263]];
   [Some example_composition]].

(** Two styles with compositions of five and seven events. *)
Definition example_styles : list (list (list Z)) :=
  [[[5; 258; 133; 7; 263]]; [[7; 258; 135; 5; 258; 133; 260]]].

(** The corpus of [example_styles], processed with three categories. *)
Definition example_processed : dataset :=
  (concat example_styles, [0; 1],
   [FloatTensor 5 3 (@progress_array example_constants 5);
    FloatTensor 7 3 (@progress_array example_constants 7)]).

(** * Properties *)

Section Properties.
Context `{K : Constants}.

(** ** The random source *)

Lemma randint_spec a b g :
  a ≤ b →
  ∃ k, a ≤ k ≤ b ∧ randint a b g = inr (k, rng_tail g).
Proof.
  intros Hab. exists (a + g 0%nat mod (b - a + 1)). split.
  - pose proof (Z.mod_pos_bound (g 0%nat) (b - a + 1)). lia.
  - unfold randint. rewrite bool_decide_eq_false_2 by lia. done.
Qed.

Lemma randint_empty a b g : b < a → randint a b g = inl ValueError.
Proof.
  intros Hab. unfold randint. rewrite bool_decide_eq_true_2 by lia. done.
Qed.

(** Every value of the range is drawn from some source. *)
Lemma randint_any a b k g :
  a ≤ k ≤ b → randint a b (rng_cons (k - a) g) = inr (k, g).
Proof.
  intros Hk. unfold randint. rewrite bool_decide_eq_false_2 by lia.
  unfold bind, randbelow, ret. simpl.
  rewrite Z.mod_small by lia. do 2 f_equal. lia.
Qed.

(** ** The window generator *)

Lemma iteration_current sequence st :
  current (iteration sequence st).2 = S (current st).
Proof.
  unfold iteration. repeat case_bool_decide; reflexivity.
Qed.

Lemma iteration_pad sequence st :
  (length sequence ≤ current st)%nat →
  iteration sequence st
  = (Yield PAD, GenState (note_ons st) (S (i st)) (S (current st))).
Proof.
  intros Hge. unfold iteration. rewrite bool_decide_eq_true_2; done.
Qed.

(** An iteration either fills an output slot, or it skips a source event,
    and it can only skip while the cursor is inside the source. *)
Lemma iteration_i sequence st :
  match (iteration sequence st).1 with
  | Yield _ => i (iteration sequence st).2 = S (i st)
  | Continue =>
      i (iteration sequence st).2 = i st ∧ (current st < length sequence)%nat
  end.
Proof.
  unfold iteration. repeat case_bool_decide; simpl; try done. split; [done | lia].
Qed.

Lemma run_terminates sequence seq_len fuel st :
  (variant sequence seq_len st ≤ fuel)%nat →
  ∃ w fin n,
    run sequence seq_len fuel st = Some (w, fin, n) ∧
    (n ≤ variant sequence seq_len st)%nat ∧
    length w = Z.to_nat (seq_len - Z.of_nat (i st)) ∧
    current fin = (current st + n)%nat.
Proof.
  revert st. induction fuel as [|fuel IH]; intros st Hv.
  - simpl. case_bool_decide as Hlt.
    + unfold variant in Hv. lia.
    + exists [], st, O. repeat split; [lia | simpl; lia | lia].
  - simpl. case_bool_decide as Hlt.
    + pose proof (iteration_current sequence st) as Hc.
      pose proof (iteration_i sequence st) as Hi.
      destruct (iteration sequence st) as [a st'] eqn:Hit. simpl in Hc, Hi.
      destruct (IH st') as (w & fin & n & Hrun & Hn & Hw & Hfin).
      { unfold variant in *. destruct a; lia. }
      rewrite Hrun. exists (yielded a w), fin, (S n).
      repeat split.
      * unfold variant in *. destruct a; lia.
      * destruct a; simpl; lia.
      * lia.
    + exists [], st, O. repeat split; [lia | simpl; lia | lia].
Qed.

(** More fuel than needed does not change the result. *)
Lemma run_fuel_mono sequence seq_len fuel fuel' st r :
  run sequence seq_len fuel st = Some r → (fuel ≤ fuel')%nat →
  run sequence seq_len fuel' st = Some r.
Proof.
  revert fuel' st r. induction fuel as [|fuel IH]; intros fuel' st r Hrun Hle.
  - simpl in Hrun. case_bool_decide; [done|].
    destruct fuel'; simpl; rewrite bool_decide_eq_false_2; done.
  - destruct fuel' as [|fuel']; [lia|]. simpl in *.
    case_bool_decide; [|done].
    destruct (iteration sequence st) as [a st'].
    destruct (run sequence seq_len fuel st') as [[[w fin] n]|] eqn:Hr; [|done].
    rewrite (IH fuel' st' _ Hr); [done | lia].
Qed.

(** A finished run is its [n] iterations of the loop body. *)
Lemma run_iterate sequence seq_len fuel st w fin n :
  run sequence seq_len fuel st = Some (w, fin, n) →
  iterate_loop sequence n st = (w, fin).
Proof.
  revert st w fin n. induction fuel as [|fuel IH]; intros st w fin n; simpl.
  - case_bool_decide; [done|]. intros [= <- <- <-]. done.
  - case_bool_decide; [|intros [= <- <- <-]; done].
    destruct (iteration sequence st) as [a st'] eqn:Hit.
    destruct (run sequence seq_len fuel st') as [[[w' fin'] n']|] eqn:Hr; [|done].
    intros [= <- <- <-]. simpl. rewrite Hit, (IH _ _ _ _ Hr). done.
Qed.

Lemma iterate_loop_app sequence n m st :
  iterate_loop sequence (n + m) st
  = let '(w1, mid) := iterate_loop sequence n st in
    let '(w2, fin) := iterate_loop sequence m mid in
    (w1 ++ w2, fin).
Proof.
  revert st. induction n as [|n IH]; intros st; simpl.
  - destruct (iterate_loop sequence m st); done.
  - destruct (iteration sequence st) as [a st']. rewrite IH.
    destruct (iterate_loop sequence n st') as [w1 mid].
    destruct (iterate_loop sequence m mid) as [w2 fin].
    destruct a; done.
Qed.

Lemma iterate_loop_current sequence n st :
  current (iterate_loop sequence n st).2 = (current st + n)%nat.
Proof.
  revert st. induction n as [|n IH]; intros st; simpl; [lia|].
  pose proof (iteration_current sequence st) as Hc.
  destruct (iteration sequence st) as [a st']. specialize (IH st').
  destruct (iterate_loop sequence n st') as [w fin]. simpl in *. lia.
Qed.

(** Once the source is exhausted the loop only pads, and the sounding set
    stays as it is. *)
Lemma iterate_loop_pad sequence n st :
  (length sequence ≤ current st)%nat →
  iterate_loop sequence n st
  = (replicate n PAD,
     GenState (note_ons st) (i st + n) (current st + n)).
Proof.
  revert st. induction n as [|n IH]; intros st Hge; simpl.
  - destruct st; simpl. rewrite !Nat.add_0_r. done.
  - rewrite iteration_pad by done. rewrite IH by (simpl; lia). simpl.
    rewrite !Nat.add_succ_r. done.
Qed.

Lemma pad_is_time_shift :
  contiguous_layout → classify PAD = TimeShift (TIME_QUANTIZATION - 1).
Proof.
  intros (Hoff & Htime & Hn & Hq). unfold classify, PAD.
  rewrite bool_decide_eq_false_2 by lia. f_equal. lia.
Qed.

(** What an iteration yields is decoded the way the generator tracks it. *)
Lemma iteration_decode sequence st :
  contiguous_layout →
  match (iteration sequence st).1 with
  | Yield evt =>
      (∀ note, classify evt = NoteOff note → note ∈ note_ons st) ∧
      note_ons (iteration sequence st).2 = decode_evt (note_ons st) evt
  | Continue => note_ons (iteration sequence st).2 = note_ons st
  end.
Proof.
  intros Hlay. unfold iteration. case_bool_decide as Hend; simpl.
  - unfold decode_evt. rewrite pad_is_time_shift by done. split; [|done].
    intros note [=].
  - unfold decode_evt, classify.
    repeat case_bool_decide; simpl; try done;
      repeat case_bool_decide; try lia; (split; [|done]); intros note [=].
    subst note. first [done | by apply dec_stable].
Qed.

Lemma run_well_opened sequence seq_len fuel st w fin n :
  contiguous_layout →
  run sequence seq_len fuel st = Some (w, fin, n) →
  well_opened (note_ons st) w.
Proof.
  intros Hlay. revert st w fin n.
  induction fuel as [|fuel IH]; intros st w fin n; simpl.
  - case_bool_decide; [done|]. intros [= <- <- <-]. done.
  - case_bool_decide; [|intros [= <- <- <-]; done].
    pose proof (iteration_decode sequence st Hlay) as Hdec.
    destruct (iteration sequence st) as [a st'] eqn:Hit. simpl in Hdec.
    destruct (run sequence seq_len fuel st') as [[[w' fin'] n']|] eqn:Hr; [|done].
    intros [= <- <- <-]. apply IH in Hr.
    destruct a as [evt|]; simpl.
    + destruct Hdec as [Hoff Hons]. rewrite <- Hons. done.
    + rewrite <- Hdec. done.
Qed.

Lemma well_opened_lookup open w k evt note :
  well_opened open w → w !! k = Some evt → classify evt = NoteOff note →
  note ∈ foldl decode_evt open (take k w).
Proof.
  revert open k. induction w as [|e w IH]; intros open k Hwo Hk Hoff; [done|].
  destruct Hwo as [Hhd Htl]. destruct k as [|k]; simpl in *.
  - injection Hk as ->. by apply Hhd.
  - by apply IH.
Qed.

(** A note is open after [w] only if [w] opened it, or it was open before,
    and it was not closed since. *)
Lemma elem_of_sounding_from open w note :
  note ∈ foldl decode_evt open w →
  (∃ j evt, w !! j = Some evt ∧ classify evt = NoteOn note ∧
     ∀ j' evt', (j < j')%nat → w !! j' = Some evt' → classify evt' ≠ NoteOff note)
  ∨ (note ∈ open ∧ ∀ j evt, w !! j = Some evt → classify evt ≠ NoteOff note).
Proof.
  induction w as [|e w IH] using rev_ind; simpl.
  - intros Hin. right. split; [done|]. intros j evt Hj. done.
  - rewrite foldl_app. simpl. unfold decode_evt at 1.
    destruct (classify e) as [m|m|b] eqn:Hcl.
    + intros [Hin%elem_of_singleton | Hin]%elem_of_union.
      * subst m. left. exists (length w), e. split_and!.
        -- by rewrite list_lookup_middle.
        -- done.
        -- intros j' evt' Hlt Hj'. apply lookup_lt_Some in Hj'.
           rewrite length_app in Hj'. simpl in Hj'. lia.
      * destruct (IH Hin) as [(j & evt & Hj & Hon & Hno) | [Hopen Hno]].
        -- left. exists j, evt. split_and!; [by apply lookup_app_l_Some | done |].
           intros j' evt' Hlt Hj'. apply lookup_snoc_Some in Hj' as [[_ Hj']|[_ <-]].
           ++ by eapply Hno.
           ++ congruence.
        -- right. split; [done|]. intros j evt [[_ Hj]|[_ <-]]%lookup_snoc_Some.
           ++ by eapply Hno.
           ++ congruence.
    + intros [Hin Hne]%elem_of_difference.
      assert (classify e ≠ NoteOff note) as Hd.
      { rewrite Hcl. intros [= ->]. apply Hne. by apply elem_of_singleton. }
      destruct (IH Hin) as [(j & evt & Hj & Hon & Hno) | [Hopen Hno]].
      * left. exists j, evt. split_and!; [by apply lookup_app_l_Some | done |].
        intros j' evt' Hlt Hj'. apply lookup_snoc_Some in Hj' as [[_ Hj']|[_ <-]].
        -- by eapply Hno.
        -- done.
      * right. split; [done|]. intros j evt [[_ Hj]|[_ <-]]%lookup_snoc_Some.
        -- by eapply Hno.
        -- done.
    + intros Hin.
      destruct (IH Hin) as [(j & evt & Hj & Hon & Hno) | [Hopen Hno]].
      * left. exists j, evt. split_and!; [by apply lookup_app_l_Some | done |].
        intros j' evt' Hlt Hj'. apply lookup_snoc_Some in Hj' as [[_ Hj']|[_ <-]].
        -- by eapply Hno.
        -- congruence.
      * right. split; [done|]. intros j evt [[_ Hj]|[_ <-]]%lookup_snoc_Some.
        -- by eapply Hno.
        -- congruence.
Qed.

Lemma generator_run sequence seq_len index :
  ∃ fin n,
    run sequence seq_len (length sequence + Z.to_nat seq_len) (gen_init index)
    = Some (generator sequence seq_len index, fin, n) ∧
    (n ≤ variant sequence seq_len (gen_init index))%nat ∧
    length (generator sequence seq_len index) = Z.to_nat seq_len ∧
    current fin = (index + n)%nat.
Proof.
  destruct (run_terminates sequence seq_len
              (length sequence + Z.to_nat seq_len) (gen_init index))
    as (w & fin & n & Hrun & Hn & Hw & Hfin).
  { unfold variant. simpl. lia. }
  exists fin, n. unfold generator. rewrite Hrun. split_and!; try done.
  rewrite Hw. simpl. f_equal. lia.
Qed.

(** C10: for every event sequence, every start index and every target
    length [seq_len >= 0], the loop of the window generator terminates.  Run
    with [len(sequence) + seq_len] iterations of fuel it finishes, after [n]
    iterations with [n <= len(sequence) + seq_len]; the source cursor grows
    by one in every iteration, so that it ends at [index + n]; and exactly
    [seq_len] events are yielded. *)
Theorem generator_terminates sequence index seq_len :
  0 ≤ seq_len →
  ∃ w fin n,
    run sequence seq_len (length sequence + Z.to_nat seq_len) (gen_init index)
    = Some (w, fin, n) ∧
    (n ≤ length sequence + Z.to_nat seq_len)%nat ∧
    (∀ st, current (iteration sequence st).2 = S (current st)) ∧
    current fin = (index + n)%nat ∧
    generator sequence seq_len index = w ∧
    len w = seq_len.
Proof.
  intros Hlen.
  destruct (generator_run sequence seq_len index) as (fin & n & Hrun & Hn & Hw & Hfin).
  exists (generator sequence seq_len index), fin, n. split_and!; try done.
  - unfold variant in Hn. simpl in Hn. lia.
  - apply iteration_current.
  - unfold len. rewrite Hw. lia.
Qed.

(** C3: for every composition, every start index and every target length
    [L >= 0] the window of the generator has exactly [L] events.  The run is
    [n] iterations of the loop body; the first [m] of them, those made while
    the cursor is inside the source, yield the events [emitted], and the
    window is [emitted] followed by [n - m] padding events [PAD], one for
    every slot that was still free when the source ran out; the padding
    leaves the sounding set as it was at that point. *)
Theorem window_length_and_padding sequence index seq_len :
  0 ≤ seq_len →
  ∃ fin n emitted mid,
    let w := generator sequence seq_len index in
    let m := (n `min` (length sequence - index))%nat in
    run sequence seq_len (length sequence + Z.to_nat seq_len) (gen_init index)
    = Some (w, fin, n) ∧
    len w = seq_len ∧
    iterate_loop sequence m (gen_init index) = (emitted, mid) ∧
    w = emitted ++ replicate (n - m) PAD ∧
    note_ons fin = note_ons mid.
Proof.
  intros Hlen.
  destruct (generator_run sequence seq_len index) as (fin & n & Hrun & Hn & Hw & Hfin).
  pose proof (run_iterate _ _ _ _ _ _ _ Hrun) as Hit.
  set (m := (n `min` (length sequence - index))%nat).
  destruct (iterate_loop sequence m (gen_init index)) as [emitted mid] eqn:Hmid.
  assert (generator sequence seq_len index = emitted ++ replicate (n - m) PAD
          ∧ note_ons fin = note_ons mid) as [Hsplit Hons].
  { assert (m = n ∨ (m < n)%nat ∧ (length sequence ≤ index + m)%nat) as Hcase by lia.
    assert (n = m + (n - m))%nat as Hnm by lia.
    pose proof (iterate_loop_current sequence m (gen_init index)) as Hc.
    rewrite Hmid in Hc. simpl in Hc.
    clearbody m. rewrite Hnm, iterate_loop_app, Hmid in Hit.
    destruct Hcase as [->|[Hlt Hend]].
    - rewrite Nat.sub_diag in *. simpl in Hit. injection Hit as <- <-. done.
    - rewrite iterate_loop_pad in Hit by lia. injection Hit as <- <-. done. }
  exists fin, n, emitted, mid. simpl. fold m. split_and!; try done.
  unfold len. rewrite Hw. lia.
Qed.

(** C2: in every window of the generator, every NoteOff closes a note that
    is open at that point of the window: a NoteOn for the same note occurs
    earlier in the window and no NoteOff for it lies in between.  An orphan
    NoteOff is therefore never yielded. *)
Theorem no_orphan_note_offs sequence index seq_len k evt note :
  contiguous_layout →
  generator sequence seq_len index !! k = Some evt →
  classify evt = NoteOff note →
  let w := generator sequence seq_len index in
  note ∈ sounding (take k w) ∧
  ∃ j on, (j < k)%nat ∧ w !! j = Some on ∧ classify on = NoteOn note ∧
    ∀ j' evt', (j < j' < k)%nat → w !! j' = Some evt' →
               classify evt' ≠ NoteOff note.
Proof.
  intros Hlay Hk Hoff w.
  destruct (generator_run sequence seq_len index) as (fin & n & Hrun & _).
  apply (run_well_opened _ _ _ _ _ _ _ Hlay) in Hrun. simpl in Hrun.
  pose proof (well_opened_lookup _ _ _ _ _ Hrun Hk Hoff) as Hin.
  split; [done|].
  destruct (elem_of_sounding_from _ _ _ Hin)
    as [(j & on & Hj & Hon & Hno) | [Hopen _]]; [|set_solver].
  pose proof (lookup_lt_Some _ _ _ Hj) as Hjk. rewrite length_take in Hjk.
  exists j, on. split_and!; [lia | | done |].
  - rewrite lookup_take_lt in Hj by lia. done.
  - intros j' evt' Hlt Hj'. apply (Hno j' evt'); [lia|].
    rewrite lookup_take_lt by lia. done.
Qed.

(** ** The choice of the window *)

Lemma random_subseq_spec sequence seq_len g :
  seq_len < len sequence →
  ∃ index, 0 ≤ index ≤ len sequence - 1 - seq_len ∧
    random_subseq sequence seq_len g
    = inr ((generator sequence seq_len (Z.to_nat index), index, index + seq_len),
           rng_tail g).
Proof.
  intros Hlt.
  destruct (randint_spec 0 (len sequence - 1 - seq_len) g) as (index & Hr & Heq);
    [lia|].
  exists index. split; [done|]. unfold random_subseq, bind. rewrite Heq. done.
Qed.

Lemma random_subseq_any sequence seq_len index g :
  0 ≤ index ≤ len sequence - 1 - seq_len →
  random_subseq sequence seq_len (rng_cons index g)
  = inr ((generator sequence seq_len (Z.to_nat index), index, index + seq_len), g).
Proof.
  intros Hr. unfold random_subseq, bind.
  pose proof (randint_any 0 (len sequence - 1 - seq_len) index g Hr) as Heq.
  rewrite Z.sub_0_r in Heq. rewrite Heq. done.
Qed.

Lemma random_subseq_empty_range sequence seq_len g :
  len sequence ≤ seq_len → random_subseq sequence seq_len g = inl ValueError.
Proof.
  intros Hle. unfold random_subseq, bind. rewrite randint_empty by lia. done.
Qed.

(** ** Augmentation *)

Lemma encode_classify evt : encode (classify evt) = evt.
Proof. unfold classify. repeat case_bool_decide; simpl; lia. Qed.

Lemma transpose_evt_classify t evt :
  contiguous_layout →
  transpose_evt t evt = encode (transpose_event t (classify evt)).
Proof.
  intros (Hoff & Htime & Hn & Hq). unfold transpose_evt, classify.
  repeat case_bool_decide; simpl; lia.
Qed.

(** C8: the augmenter draws one [t] in [-4 .. 4] for the whole window, and
    every [t] of that range can be drawn.  The augmented window has the
    events of the window in place, where a NoteOn or NoteOff for note [n]
    has become the NoteOn or NoteOff for note [n + t] and a TimeShift is the
    same code as before; for [t = 0] the window is returned as it is. *)
Theorem augment_transposes (w : list Z) :
  contiguous_layout →
  (∀ g, ∃ t w',
      -4 ≤ t ≤ 4 ∧
      augment w g = inr (w', rng_tail g) ∧
      length w' = length w ∧
      (∀ k evt, w !! k = Some evt →
         w' !! k = Some (match classify evt with
                         | NoteOn n => encode (NoteOn (n + t))
                         | NoteOff n => encode (NoteOff (n + t))
                         | TimeShift _ => evt
                         end)) ∧
      (t = 0 → w' = w)) ∧
  (∀ t g', -4 ≤ t ≤ 4 →
     ∃ g, augment w g = inr (encode ∘ transpose_event t ∘ classify <$> w, g')).
Proof.
  intros Hlay.
  assert (∀ t, transpose_evt t <$> w = encode ∘ transpose_event t ∘ classify <$> w)
    as Hmap.
  { intros t. apply list_fmap_ext. intros k evt _. simpl.
    by apply transpose_evt_classify. }
  split.
  - intros g. destruct (randint_spec (-4) 4 g) as (t & Ht & Heq); [lia|].
    exists t, (if bool_decide (t = 0) then w else transpose_evt t <$> w).
    split_and!.
    + lia.
    + lia.
    + unfold augment, bind. rewrite Heq. by case_bool_decide.
    + case_bool_decide; [done|]. by rewrite length_fmap.
    + intros k evt Hk.
      assert ((transpose_evt t <$> w) !! k = Some (transpose_evt t evt)) as Hk'.
      { by rewrite list_lookup_fmap, Hk. }
      rewrite transpose_evt_classify in Hk' by done.
      case_bool_decide as Ht0.
      * subst t. rewrite Hk. f_equal.
        pose proof (encode_classify evt) as He.
        destruct (classify evt); simpl in *; lia.
      * rewrite Hk'. f_equal.
        pose proof (encode_classify evt) as He.
        destruct (classify evt); simpl in *; lia.
    + intros ->. by rewrite bool_decide_eq_true_2.
  - intros t g' Ht. exists (rng_cons (t - -4) g').
    unfold augment, bind. rewrite randint_any by lia.
    case_bool_decide as Ht0; [|by rewrite Hmap].
    subst t. unfold ret. do 2 f_equal.
    rewrite <- (list_fmap_id w) at 1. apply list_fmap_ext.
    intros k evt _. simpl. pose proof (encode_classify evt) as He.
    destruct (classify evt); simpl in *; lia.
Qed.

(** ** Construction of the sampler *)

Lemma sampler_nonempty (seqs : list (list Z)) style_tags progresses :
  seqs ≠ [] →
  sampler (seqs, style_tags, progresses)
  = inr (sample (seqs, style_tags, progresses)).
Proof.
  intros Hne. unfold sampler. rewrite bool_decide_eq_false_2; [done|].
  destruct seqs; [done|]. unfold len. simpl. lia.
Qed.

(** C9, at the failing input: constructed over a split with no sequences,
    whatever its style tags and progress tensors, the sampler stops at
    construction, where no sample has been drawn and the random source has
    not been touched, but what it raises is a [TypeError]: the operand of
    its [raise] is the plain string ['Insufficient training data.'], which
    is not an exception, so that no insufficient-data error reaches the
    caller. *)
Theorem sampler_empty_split (style_tags : list Z) (progresses : list tensor) :
  sampler ([], style_tags, progresses) = inl TypeError.
Proof. done. Qed.

(** ** Shuffling and the split *)

Lemma insert_Permutation {A} (l : list A) k a b :
  l !! k = Some a → a :: <[k:=b]> l ≡ₚ b :: l.
Proof.
  revert k. induction l as [|c l IH]; intros [|k] Hk; simplify_eq/=.
  - apply perm_swap.
  - rewrite (perm_swap c a), (IH _ Hk). apply perm_swap.
Qed.

Lemma swap_Permutation {A} (x : list A) k j : swap x k j ≡ₚ x.
Proof.
  unfold swap. destruct (x !! k) as [a|] eqn:Hk; [|done].
  destruct (x !! j) as [b|] eqn:Hj; [|done].
  apply (Permutation_cons_inv (a:=a)).
  rewrite insert_Permutation.
  - by apply insert_Permutation.
  - destruct (decide (k = j)) as [->|Hne].
    + rewrite list_lookup_insert_eq; [done|]. by eapply lookup_lt_Some.
    + rewrite list_lookup_insert_ne by done. done.
Qed.

Lemma shuffle_from_Permutation {A} n (x : list A) g :
  ∃ y g', shuffle_from n x g = inr (y, g') ∧ y ≡ₚ x.
Proof.
  revert x g. induction n as [|n IH]; intros x g.
  - exists x, g. done.
  - cbn [shuffle_from]. unfold bind, randbelow.
    destruct (IH (swap x (S n) (Z.to_nat (g 0%nat `mod` (Z.of_nat (S n) + 1))))
                 (rng_tail g)) as (y & g' & Heq & Hperm).
    exists y, g'. split; [done|]. rewrite Hperm. apply swap_Permutation.
Qed.

Lemma shuffle_Permutation {A} (x : list A) g :
  ∃ y g', shuffle x g = inr (y, g') ∧ y ≡ₚ x.
Proof. apply shuffle_from_Permutation. Qed.

(** The two slices of [validation_split] when [1 <= num_val <= len(r)]. *)
Lemma slice_train_val {A} (r : list A) (k : Z) :
  1 ≤ k ≤ len r →
  slice r None (Some (- k)) = take (Z.to_nat (len r - k)) r ∧
  slice r (Some (- k)) None = drop (Z.to_nat (len r - k)) r.
Proof.
  intros Hk. unfold slice, slice_index. simpl.
  rewrite !bool_decide_eq_true_2 by lia. split.
  - f_equal. lia.
  - rewrite take_ge; [f_equal; lia|]. rewrite length_drop. unfold len in *. lia.
Qed.

(** With [num_val = 0] the bound [-num_val] is [0]: the first slice is empty
    and the second is the whole list. *)
Lemma slice_train_val_0 {A} (r : list A) :
  slice r None (Some (- 0)) = [] ∧ slice r (Some (- 0)) None = r.
Proof.
  unfold slice, slice_index. simpl.
  assert ((- 0) `min` len r = 0) as -> by (unfold len; lia).
  split; [done|]. simpl. rewrite drop_0, take_ge; [done|]. unfold len. lia.
Qed.

(** [split_indicies] after the shuffle: the product and its ceiling, then
    the two slices and the two assertions. *)
Lemma split_indicies_unfold n split g :
  ∃ r g', shuffle (seq 0 n) g = inr (r, g') ∧ r ≡ₚ seq 0 n ∧
    len r = Z.of_nat n ∧
    split_indicies n split g
    = match num_val n split with
      | inl e => inl e
      | inr k =>
          let train_indicies := slice r None (Some (- k)) in
          let val_indicies := slice r (Some (- k)) None in
          if bool_decide (len val_indicies = k) then
            if bool_decide (len train_indicies = len r - k) then
              inr ((train_indicies, val_indicies), g')
            else inl AssertionError
          else inl AssertionError
      end.
Proof.
  destruct (shuffle_Permutation (seq 0 n) g) as (r & g' & Hsh & Hperm).
  exists r, g'. split_and!; [done..| |].
  - unfold len. by rewrite Hperm, length_seq.
  - assert (len r = Z.of_nat n) as Hlr
      by (unfold len; by rewrite Hperm, length_seq).
    unfold split_indicies, bind. rewrite Hsh. rewrite Hlr at 1.
    fold (num_val n split). unfold lift.
    destruct (num_val n split) as [e|k]; [done|].
    cbv zeta. unfold assert, ret.
    destruct (bool_decide (len (slice r (Some (- k)) None) = k)); [|done].
    destruct (bool_decide (len (slice r None (Some (- k))) = len r - k)); done.
Qed.

(** A NaN or an overflow in [num_val] ends the split with its error. *)
Lemma split_indicies_raises n split g e :
  num_val n split = inl e → split_indicies n split g = inl e.
Proof.
  intros Hnum.
  destruct (split_indicies_unfold n split g) as (r & g' & _ & _ & _ & ->).
  by rewrite Hnum.
Qed.

Lemma split_indicies_ok n split g k :
  num_val n split = inr k → 1 ≤ k ≤ Z.of_nat n →
  ∃ r g', shuffle (seq 0 n) g = inr (r, g') ∧ r ≡ₚ seq 0 n ∧
    split_indicies n split g
    = inr ((take (Z.to_nat (Z.of_nat n - k)) r,
            drop (Z.to_nat (Z.of_nat n - k)) r), g').
Proof.
  intros Hnum Hk.
  destruct (split_indicies_unfold n split g)
    as (r & g' & Hsh & Hperm & Hlr & ->).
  exists r, g'. split_and!; [done..|].
  rewrite Hnum. cbv zeta.
  destruct (slice_train_val r k) as [-> ->]; [lia|].
  rewrite Hlr. unfold len in *. rewrite length_take, length_drop.
  rewrite !bool_decide_eq_true_2 by lia. done.
Qed.

Lemma split_indicies_no_val n split g :
  num_val n split = inr 0 → (0 < n)%nat →
  split_indicies n split g = inl AssertionError.
Proof.
  intros Hnum Hn.
  destruct (split_indicies_unfold n split g)
    as (r & g' & Hsh & Hperm & Hlr & ->).
  rewrite Hnum. cbv zeta.
  destruct (slice_train_val_0 r) as [-> ->].
  rewrite bool_decide_eq_false_2 by lia. done.
Qed.

Lemma gather_picks {A} (l : list A) indices :
  Forall (λ k, (k < length l)%nat) indices →
  ∃ xs, gather l indices = inr xs ∧ picks l indices xs.
Proof.
  induction 1 as [|k indices Hk _ (xs & Hxs & Hp)]; simpl.
  - exists []. split; [done | constructor].
  - destruct (lookup_lt_is_Some_2 l k Hk) as [a Ha].
    exists (a :: xs). unfold getitem at 1. rewrite Ha. fold (gather l indices).
    rewrite Hxs. split; [done | by constructor].
Qed.

Lemma gather3_picks (data : dataset) indices :
  length data.1.2 = length data.1.1 → length data.2 = length data.1.1 →
  Forall (λ k, (k < length data.1.1)%nat) indices →
  ∃ sub, gather3 data indices = inr sub ∧ picks3 data indices sub.
Proof.
  destruct data as [[seqs style_tags] progresses]. simpl. intros Ht Hp Hall.
  destruct (gather_picks seqs indices Hall) as (s & Hs & Hps).
  destruct (gather_picks style_tags indices) as (t & Htg & Hpt);
    [by rewrite Ht|].
  destruct (gather_picks progresses indices) as (p & Hpg & Hpp);
    [by rewrite Hp|].
  exists (s, t, p). rewrite Hs, Htg, Hpg. done.
Qed.

Lemma validation_split_unfold (data : dataset) split g :
  validation_split data split g
  = match split_indicies (length data.1.1) split g with
    | inl e => inl e
    | inr ((train_indicies, val_indicies), g') =>
        match gather3 data train_indicies with
        | inl e => inl e
        | inr train =>
            match gather3 data val_indicies with
            | inl e => inl e
            | inr val => inr ((train, val), g')
            end
        end
    end.
Proof.
  destruct data as [[seqs style_tags] progresses].
  unfold validation_split, bind, lift, ret. cbn [fst snd].
  destruct (split_indicies (length seqs) split g) as [e|[[tr va] g']]; [done|].
  destruct (gather3 _ tr); [done|].
  destruct (gather3 _ va); done.
Qed.

Lemma Permutation_seq_bound n (r : list nat) :
  r ≡ₚ seq 0 n → Forall (λ k, (k < n)%nat) r.
Proof.
  intros Hperm. apply Forall_forall. intros k Hk.
  rewrite Hperm in Hk. apply elem_of_seq in Hk. lia.
Qed.

(** C5, as the code has it: let [num_val] be what the code computes for a
    corpus of [M] aligned triples and a float fraction [f], the ceiling of
    the double-precision product of [M] and [f] (the product is rounded to
    the nearest double before the ceiling is taken, so that [num_val] is
    [ceil(M*f)] only up to that rounding).  When [1 <= num_val <= M],
    [validation_split] succeeds; its index lists have [|val| = num_val] and
    [|train| = M - |val|], put together they are a permutation of
    [0 .. M-1], so that they are disjoint and cover every index exactly
    once, and the two returned splits are the triples at those indices. *)
Theorem validation_split_partition (data : dataset) split g k :
  let n := length data.1.1 in
  length data.1.2 = n → length data.2 = n →
  num_val n split = inr k → 1 ≤ k ≤ Z.of_nat n →
  ∃ train_indicies val_indicies train val g',
    split_indicies n split g = inr ((train_indicies, val_indicies), g') ∧
    validation_split data split g = inr ((train, val), g') ∧
    picks3 data train_indicies train ∧ picks3 data val_indicies val ∧
    len val_indicies = k ∧
    len train_indicies = Z.of_nat n - k ∧
    train_indicies ++ val_indicies ≡ₚ seq 0 n ∧
    (∀ j, j ∈ train_indicies → j ∉ val_indicies) ∧
    (∀ j, (j < n)%nat ↔ j ∈ train_indicies ∨ j ∈ val_indicies).
Proof.
  intros n Ht Hp Hnum Hk.
  destruct (split_indicies_ok n split g k Hnum Hk)
    as (r & g' & Hsh & Hperm & Hsplit).
  set (cut := Z.to_nat (Z.of_nat n - k)) in *.
  assert (length r = n) as Hlen by (by rewrite Hperm, length_seq).
  pose proof (Permutation_seq_bound n r Hperm) as Hbound.
  destruct (gather3_picks data (take cut r)) as (train & Htr & Hptr);
    [done | done | by apply Forall_take |].
  destruct (gather3_picks data (drop cut r)) as (val & Hva & Hpva);
    [done | done | by apply Forall_drop |].
  assert (NoDup (take cut r ++ drop cut r)) as Hnd.
  { rewrite take_drop, Hperm. apply NoDup_seq. }
  exists (take cut r), (drop cut r), train, val, g'. split_and!; try done.
  - rewrite validation_split_unfold. fold n. rewrite Hsplit, Htr, Hva. done.
  - unfold len. rewrite length_drop. lia.
  - unfold len. rewrite length_take. lia.
  - by rewrite take_drop.
  - apply NoDup_app in Hnd as (_ & Hdisj & _). done.
  - intros j. rewrite <- elem_of_app, take_drop, Hperm, elem_of_seq. lia.
Qed.

(** C6, as the code has it: [validation_split] has no check for an empty
    side and no insufficient-data error.  When its [num_val], the ceiling of
    the double-precision product of [M] and [f], equals [M], it succeeds and
    returns an empty training split next to a validation split made of the
    whole corpus.  When [num_val] is [0] for a corpus that is not empty, it
    stops at its own assertion on the size of the validation indices, with
    an [AssertionError]. *)
Theorem validation_split_empty_side (data : dataset) split g :
  let n := length data.1.1 in
  length data.1.2 = n → length data.2 = n → (0 < n)%nat →
  (num_val n split = inr (Z.of_nat n) →
   ∃ r val g',
     validation_split data split g = inr ((([], [], []), val), g') ∧
     r ≡ₚ seq 0 n ∧ picks3 data r val ∧
     length val.1.1 = n) ∧
  (num_val n split = inr 0 → validation_split data split g = inl AssertionError).
Proof.
  intros n Ht Hp Hn. split.
  - intros Hnum.
    destruct (split_indicies_ok n split g (Z.of_nat n))
      as (r & g' & Hsh & Hperm & Hsplit); [done|lia|].
    rewrite Z.sub_diag in Hsplit. simpl in Hsplit. rewrite drop_0 in Hsplit.
    pose proof (Permutation_seq_bound n r Hperm) as Hbound.
    destruct (gather3_picks data r) as (val & Hva & Hpva); [done..|].
    exists r, val, g'. split_and!; [|done..|].
    + rewrite validation_split_unfold. fold n. rewrite Hsplit, Hva.
      destruct data as [[seqs style_tags] progresses]. done.
    + destruct Hpva as (Hs & _). apply Forall2_length in Hs.
      rewrite <- Hs, Hperm, length_seq. done.
  - intros Hnum. rewrite validation_split_unfold. fold n.
    rewrite split_indicies_no_val by done. done.
Qed.

(** ** Samples and batches *)

Lemma augment_length (w : list Z) g :
  ∃ w', augment w g = inr (w', rng_tail g) ∧ length w' = length w.
Proof.
  destruct (randint_spec (-4) 4 g) as (t & Ht & Heq); [lia|].
  unfold augment, bind. rewrite Heq. case_bool_decide.
  - by exists w.
  - exists (transpose_evt t <$> w). by rewrite length_fmap.
Qed.

Lemma slice_one {A} (l : list A) (k : Z) :
  0 ≤ k < len l → length (slice l (Some k) (Some (k + 1))) = 1%nat.
Proof.
  intros Hk. unfold slice, slice_index. simpl.
  rewrite !bool_decide_eq_false_2 by lia.
  rewrite length_take, length_drop. unfold len in *. lia.
Qed.

Lemma tensor_slice_shape t n rest start stop :
  shape t = n :: rest → 0 ≤ start ≤ stop → stop ≤ Z.of_nat n →
  ∃ u, tensor_slice t start stop = inr u ∧
       shape u = Z.to_nat (stop - start) :: rest.
Proof.
  intros Hs Hstart Hstop. unfold tensor_slice. rewrite Hs.
  eexists. split; [done|]. simpl. unfold slice_index.
  rewrite !bool_decide_eq_false_2 by lia. do 2 f_equal. lia.
Qed.

Lemma sample_shapes (seqs : list (list Z)) style_tags progresses seq_len g :
  0 ≤ seq_len → seqs ≠ [] → length style_tags = length seqs →
  Forall2 (λ s p, shape p = [length s; CATEGORY_LEVEL]) seqs progresses →
  Forall (λ s, seq_len < len s) seqs →
  ∃ x g', sample (seqs, style_tags, progresses) seq_len g = inr (x, g') ∧
          sample_shaped seq_len x.
Proof.
  intros Hlen Hne Htags Hprog Hlong.
  destruct (randint_spec 0 (len seqs - 1) g) as (seq_id & Hid & Hdraw).
  { destruct seqs; [done|]. unfold len. simpl. lia. }
  destruct (lookup_lt_is_Some_2 seqs (Z.to_nat seq_id)) as [sequence Hseq].
  { unfold len in Hid. lia. }
  destruct (Forall2_lookup_l _ _ _ _ _ Hprog Hseq) as (progress & Hpr & Hshape).
  rewrite Forall_lookup in Hlong. specialize (Hlong _ _ Hseq).
  destruct (random_subseq_spec sequence seq_len (rng_tail g) Hlong)
    as (index & Hindex & Hsub).
  destruct (augment_length (generator sequence seq_len (Z.to_nat index))
              (rng_tail (rng_tail g))) as (w' & Haug & Hw').
  destruct (tensor_slice_shape progress _ _ index (index + seq_len) Hshape)
    as (u & Hu & Hushape); [lia | unfold len in *; lia |].
  eexists (_, _, _), _. split.
  - unfold sample, bind, lift, getitem. rewrite Hdraw, Hseq, Hsub, Hpr, Haug, Hu.
    reflexivity.
  - split_and!; simpl.
    + rewrite Hw'. destruct (generator_run sequence seq_len (Z.to_nat index))
        as (_ & _ & _ & _ & -> & _). done.
    + rewrite slice_one; [done|]. unfold len in *. lia.
    + rewrite Hushape. do 2 f_equal. lia.
Qed.

Lemma draw_samples_shapes (seqs : list (list Z)) style_tags progresses seq_len n g :
  0 ≤ seq_len → seqs ≠ [] → length style_tags = length seqs →
  Forall2 (λ s p, shape p = [length s; CATEGORY_LEVEL]) seqs progresses →
  Forall (λ s, seq_len < len s) seqs →
  ∃ batch g',
    draw_samples (sample (seqs, style_tags, progresses)) seq_len n g
    = inr (batch, g') ∧
    length batch = n ∧ Forall (sample_shaped seq_len) batch.
Proof.
  intros Hlen Hne Htags Hprog Hlong. revert g.
  induction n as [|n IH]; intros g.
  - exists [], g. done.
  - destruct (sample_shapes seqs style_tags progresses seq_len g)
      as (x & g1 & Hx & Hsh); [done..|].
    destruct (IH g1) as (batch & g' & Hb & Hn & Hall).
    exists (x :: batch), g'. cbn [draw_samples]. unfold bind at 1. rewrite Hx.
    unfold bind at 1. rewrite Hb. split_and!; [done | simpl; lia | by constructor].
Qed.

Lemma stack_shape (ts : list tensor) s :
  ts ≠ [] → Forall (λ t, shape t = s) ts →
  stack ts = inr (Tensor (length ts :: s) (concat (data <$> ts))).
Proof.
  intros Hne Hall. destruct ts as [|t rest]; [done|].
  apply Forall_cons in Hall as [Ht Hrest]. unfold stack.
  replace (forallb _ rest) with true; [by rewrite Ht|].
  symmetry. apply forallb_forall. intros u Hu.
  rewrite Forall_forall in Hrest. unfold shape_eqb.
  apply bool_decide_eq_true_2. rewrite Ht. apply Hrest.
  by apply list_elem_of_In.
Qed.

(** C7, as the code has it: for [batch_size >= 1] and a window length
    [seq_len >= 0] shorter than every composition of the split, the batch
    assembler draws [batch_size] samples one after the other and stacks
    their components along a new leading axis.  The events have shape
    [[B, L]], the progress labels [[B, L, C]], and the style tags, each of
    them a tensor of shape [[1]], stack to shape [[B, 1]]. *)
Theorem batcher_shapes (seqs : list (list Z)) style_tags progresses
    batch_size seq_len g :
  1 ≤ batch_size → 0 ≤ seq_len →
  seqs ≠ [] → length style_tags = length seqs →
  Forall2 (λ s p, shape p = [length s; CATEGORY_LEVEL]) seqs progresses →
  Forall (λ s, seq_len < len s) seqs →
  let data := (seqs, style_tags, progresses) in
  ∃ batch events tags progress g',
    sampler data = inr (sample data) ∧
    draw_samples (sample data) seq_len (Z.to_nat batch_size) g = inr (batch, g') ∧
    length batch = Z.to_nat batch_size ∧
    stack (fst ∘ fst <$> batch) = inr events ∧
    stack (snd ∘ fst <$> batch) = inr tags ∧
    stack (snd <$> batch) = inr progress ∧
    batcher (sample data) batch_size seq_len g = inr ([events; tags; progress], g') ∧
    shape events = [Z.to_nat batch_size; Z.to_nat seq_len] ∧
    shape tags = [Z.to_nat batch_size; 1%nat] ∧
    shape progress = [Z.to_nat batch_size; Z.to_nat seq_len; CATEGORY_LEVEL].
Proof.
  intros Hb Hlen Hne Htags Hprog Hlong data.
  destruct (draw_samples_shapes seqs style_tags progresses seq_len
              (Z.to_nat batch_size) g) as (batch & g' & Hdraw & Hn & Hall);
    [done..|].
  assert (batch ≠ []) as Hbne by (intros ->; simpl in Hn; lia).
  assert (∀ {A} (f : tensor * tensor * tensor → A), f <$> batch ≠ []) as Hfne.
  { intros A f. by destruct batch. }
  pose proof (stack_shape (fst ∘ fst <$> batch) [Z.to_nat seq_len]) as He.
  pose proof (stack_shape (snd ∘ fst <$> batch) [1%nat]) as Ht.
  pose proof (stack_shape (snd <$> batch) [Z.to_nat seq_len; CATEGORY_LEVEL]) as Hp.
  rewrite length_fmap, Hn in He, Ht, Hp.
  specialize (He (Hfne _ _)). specialize (Ht (Hfne _ _)). specialize (Hp (Hfne _ _)).
  rewrite Forall_fmap in He, Ht, Hp.
  assert (Forall (λ x, shape x.1.1 = [Z.to_nat seq_len]) batch) as H1
    by (eapply Forall_impl; [exact Hall|]; intros x Hx; apply Hx).
  assert (Forall (λ x, shape x.1.2 = [1%nat]) batch) as H2
    by (eapply Forall_impl; [exact Hall|]; intros x Hx; apply Hx).
  assert (Forall (λ x, shape x.2 = [Z.to_nat seq_len; CATEGORY_LEVEL]) batch) as H3
    by (eapply Forall_impl; [exact Hall|]; intros x Hx; apply Hx).
  specialize (He H1). specialize (Ht H2). specialize (Hp H3).
  eexists batch, _, _, _, g'. split_and!; try done.
  - unfold data, sampler. rewrite bool_decide_eq_false_2; [done|].
    destruct seqs; [done|]. unfold len. simpl. lia.
  - unfold batcher, bind, lift. unfold data. rewrite Hdraw.
    unfold stack_columns. destruct batch as [|x batch]; [done|].
    rewrite He, Ht, Hp. done.
Qed.

(** ** Progress labels *)

Lemma assign_rows_length progress start stop c :
  length (assign_rows progress start stop c) = length progress.
Proof. unfold assign_rows. apply length_imap. Qed.

Lemma category_steps_le n m :
  (0 < CATEGORY_LEVEL)%nat → (m ≤ CATEGORY_LEVEL)%nat →
  0 ≤ progress_step n ∧ Z.of_nat m * progress_step n ≤ Z.of_nat n.
Proof.
  intros HC Hm. unfold progress_step.
  pose proof (Z.mul_div_le (Z.of_nat n) (Z.of_nat CATEGORY_LEVEL)) as Hle.
  assert (0 ≤ Z.of_nat n / Z.of_nat CATEGORY_LEVEL) by (apply Z.div_pos; lia).
  split; [done|]. nia.
Qed.

(** The loop over the categories: after the categories below [m], the rows
    of the first [m] buckets are one-hot and the others still zero. *)
Lemma category_loop_lookup n m :
  (0 < CATEGORY_LEVEL)%nat → (m ≤ CATEGORY_LEVEL)%nat →
  let progress :=
    foldl (λ progress c,
             let start := Z.of_nat c * progress_step n in
             let end_ := start + progress_step n in
             assign_rows progress (Some start) (Some end_) c)
          (replicate n (replicate CATEGORY_LEVEL 0)) (seq 0 m) in
  length progress = n ∧
  ∀ k, (k < n)%nat → progress !! k = Some (row_after n m k).
Proof.
  intros HC. induction m as [|m IH]; intros Hm; cbv zeta.
  - simpl. split; [by rewrite length_replicate|]. intros k Hk.
    rewrite lookup_replicate_2 by done. unfold row_after.
    rewrite bool_decide_eq_false_2 by lia. done.
  - rewrite seq_S, foldl_app. cbv zeta in IH.
    set (progress := foldl _ _ (seq 0 m)) in *. simpl.
    destruct IH as [Hlen Hrows]; [lia|].
    split; [by rewrite assign_rows_length|]. intros k Hk.
    unfold assign_rows. rewrite list_lookup_imap, Hrows by done. simpl.
    f_equal. unfold len. rewrite Hlen.
    destruct (category_steps_le n m HC) as [Hstep Hlo]; [lia|].
    destruct (category_steps_le n (S m) HC Hm) as [_ Hhi].
    rewrite Nat2Z.inj_succ, Z.mul_succ_l in Hhi.
    assert (0 ≤ Z.of_nat m * progress_step n) as Hpos by nia.
    unfold row_after, bucket_of. rewrite Nat2Z.inj_succ, Z.mul_succ_l.
    assert (Z.of_nat m * progress_step n ≤ Z.of_nat k
              < Z.of_nat m * progress_step n + progress_step n →
            Z.of_nat k / progress_step n = Z.of_nat m) as Hdiv.
    { intros Hin. symmetry.
      apply (Z.div_unique_pos _ _ _ (Z.of_nat k - Z.of_nat m * progress_step n)); lia. }
    remember (Z.of_nat m * progress_step n) as a eqn:Ha. clear Ha.
    unfold slice_index.
    rewrite (bool_decide_eq_false_2 (a < 0)) by lia.
    rewrite (bool_decide_eq_false_2 (a + progress_step n < 0)) by lia.
    rewrite !Z.min_l by lia.
    case_bool_decide as Hin.
    + rewrite bool_decide_eq_false_2 by lia.
      rewrite bool_decide_eq_true_2 by lia.
      unfold one_hot. rewrite Hdiv by done. do 2 f_equal. lia.
    + destruct (decide (Z.of_nat k < a)).
      * rewrite !bool_decide_eq_true_2 by lia. done.
      * rewrite !bool_decide_eq_false_2 by lia. done.
Qed.

Lemma progress_array_length n :
  (0 < CATEGORY_LEVEL)%nat → length (progress_array n) = n.
Proof.
  intros HC. unfold progress_array. rewrite assign_rows_length.
  fold (progress_step n). by apply (category_loop_lookup n CATEGORY_LEVEL).
Qed.

(** The rows of the array that [progress_tensor] builds. *)
Lemma progress_array_lookup n k :
  (0 < CATEGORY_LEVEL)%nat → (k < n)%nat →
  progress_array n !! k = Some (progress_row n k).
Proof.
  intros HC Hk. unfold progress_array. fold (progress_step n).
  destruct (category_loop_lookup n CATEGORY_LEVEL HC) as [Hlen Hrows]; [lia|].
  cbv zeta in Hlen, Hrows |- *. set (progress := foldl _ _ _) in *.
  unfold assign_rows.
  rewrite list_lookup_imap, Hrows by done. simpl. f_equal.
  unfold len. rewrite Hlen.
  destruct (category_steps_le n CATEGORY_LEVEL HC) as [Hstep Hhi]; [lia|].
  assert (0 ≤ Z.of_nat n mod Z.of_nat CATEGORY_LEVEL < Z.of_nat CATEGORY_LEVEL)
    as Hrem by (apply Z.mod_pos_bound; lia).
  assert (Z.of_nat n = Z.of_nat CATEGORY_LEVEL * progress_step n
                       + Z.of_nat n mod Z.of_nat CATEGORY_LEVEL)
    as Hdm by (apply Z.div_mod; lia).
  assert (0 ≤ Z.of_nat CATEGORY_LEVEL * progress_step n) as Hpos by nia.
  unfold progress_row, row_after, slice_index.
  remember (Z.of_nat CATEGORY_LEVEL * progress_step n) as a eqn:Ha. clear Ha.
  remember (Z.of_nat n mod Z.of_nat CATEGORY_LEVEL) as rem eqn:Hr. clear Hr.
  destruct (decide (rem = 0)) as [->|Hrem0].
  - rewrite (bool_decide_eq_true_2 (0 = 0)) by done.
    rewrite (bool_decide_eq_false_2 (- 0 < 0)) by lia.
    rewrite Z.min_l by lia.
    rewrite (bool_decide_eq_true_2 (_ ≤ _ < _)) by lia.
    rewrite (bool_decide_eq_true_2 (Z.of_nat k < a)) by lia. done.
  - rewrite (bool_decide_eq_false_2 (rem = 0)) by done.
    rewrite (bool_decide_eq_true_2 (- rem < 0)) by lia.
    rewrite Z.max_r by lia.
    destruct (decide (Z.of_nat k < a)).
    + rewrite (bool_decide_eq_false_2 (_ ≤ _ < _)) by lia.
      rewrite !(bool_decide_eq_true_2 (Z.of_nat k < a)) by lia. done.
    + rewrite (bool_decide_eq_true_2 (_ ≤ _ < _)) by lia.
      rewrite !(bool_decide_eq_false_2 (Z.of_nat k < a)) by lia. done.
Qed.

Lemma one_hot_length c : length (one_hot c) = CATEGORY_LEVEL.
Proof. unfold one_hot. by rewrite length_insert, length_replicate. Qed.

(** A one-hot row has exactly one entry set to [1]: the one of its column. *)
Lemma one_hot_lookup c j :
  (c < CATEGORY_LEVEL)%nat → (j < CATEGORY_LEVEL)%nat →
  one_hot c !! j = Some (if decide (j = c) then 1 else 0).
Proof.
  intros Hc Hj. unfold one_hot. destruct (decide (j = c)) as [->|Hne].
  - rewrite list_lookup_insert_eq; [done|]. by rewrite length_replicate.
  - rewrite list_lookup_insert_ne by done. by rewrite lookup_replicate_2.
Qed.

Lemma progress_row_length n k : length (progress_row n k) = CATEGORY_LEVEL.
Proof.
  unfold progress_row. repeat case_bool_decide;
    rewrite ?length_insert; apply one_hot_length.
Qed.

Lemma concat_row (rows : list (list Z)) c k r :
  Forall (λ row, length row = c) rows → rows !! k = Some r →
  take c (drop (k * c) (concat rows)) = r.
Proof.
  intros Hall. revert k. induction Hall as [|row rows Hrow _ IH]; intros k Hk.
  - done.
  - destruct k as [|k]; simpl in *.
    + injection Hk as ->. by apply take_app_length'.
    + rewrite drop_app_add' by done. by apply IH.
Qed.

(** The rows of the tensor that [progress_tensor] returns. *)
Lemma progress_tensor_row sequence k :
  (0 < CATEGORY_LEVEL)%nat → (k < length sequence)%nat →
  ∃ t, progress_tensor sequence = inr t ∧
       shape t = [length sequence; CATEGORY_LEVEL] ∧
       tensor_row t k = progress_row (length sequence) k.
Proof.
  intros HC Hk. unfold progress_tensor.
  rewrite bool_decide_eq_false_2 by lia. eexists. split_and!; [done..|].
  unfold tensor_row, FloatTensor. simpl. apply concat_row.
  - apply Forall_lookup. intros j row Hj.
    pose proof (lookup_lt_Some _ _ _ Hj) as Hlt.
    rewrite progress_array_length in Hlt by done.
    rewrite progress_array_lookup in Hj by done. injection Hj as <-.
    apply progress_row_length.
  - by apply progress_array_lookup.
Qed.

Lemma progress_tensor_shape sequence :
  (0 < CATEGORY_LEVEL)%nat →
  ∃ t, progress_tensor sequence = inr t ∧
       shape t = [length sequence; CATEGORY_LEVEL] ∧
       length (data t) = (length sequence * CATEGORY_LEVEL)%nat.
Proof.
  intros HC. unfold progress_tensor. rewrite bool_decide_eq_false_2 by lia.
  eexists. split_and!; [done..|]. simpl.
  assert (∀ rows : list (list Z),
            Forall (λ row, length row = CATEGORY_LEVEL) rows →
            length (concat rows) = (length rows * CATEGORY_LEVEL)%nat) as Hcat.
  { induction 1 as [|row rows Hrow _ IH]; [done|].
    simpl. rewrite length_app, IH, Hrow. lia. }
  rewrite Hcat; [by rewrite progress_array_length|].
  apply Forall_lookup. intros j row Hj.
  pose proof (lookup_lt_Some _ _ _ Hj) as Hlt.
  rewrite progress_array_length in Hlt by done.
  rewrite progress_array_lookup in Hj by done. injection Hj as <-.
  apply progress_row_length.
Qed.

Lemma bucket_of_lt n k :
  (0 < CATEGORY_LEVEL)%nat →
  Z.of_nat k < Z.of_nat CATEGORY_LEVEL * progress_step n →
  (bucket_of n k < CATEGORY_LEVEL)%nat.
Proof.
  intros HC Hk. unfold bucket_of.
  destruct (category_steps_le n 0 HC) as [Hstep _]; [lia|].
  assert (0 < progress_step n) as Hpos by nia.
  assert (Z.of_nat k / progress_step n < Z.of_nat CATEGORY_LEVEL)
    by (apply Z.div_lt_upper_bound; lia).
  assert (0 ≤ Z.of_nat k / progress_step n) by (apply Z.div_pos; lia).
  lia.
Qed.

(** X15: when the length is not a multiple of the category count (or there is a
    single category), every row of the progress tensor is one-hot, with its
    [1] in a column below the category count. *)
Lemma progress_rows_one_hot sequence k :
  (0 < CATEGORY_LEVEL)%nat → (k < length sequence)%nat →
  len sequence mod Z.of_nat CATEGORY_LEVEL ≠ 0 ∨ CATEGORY_LEVEL = 1%nat →
  ∃ t c, progress_tensor sequence = inr t ∧
         (c < CATEGORY_LEVEL)%nat ∧ tensor_row t k = one_hot c.
Proof.
  intros HC Hk Hcase.
  destruct (progress_tensor_row sequence k HC Hk) as (t & Ht & _ & Hrow).
  exists t. rewrite Hrow. unfold progress_row.
  destruct Hcase as [Hrem|H1].
  - rewrite bool_decide_eq_false_2 by done. case_bool_decide as Hin.
    + exists (bucket_of (length sequence) k). split_and!; [done | | done].
      by apply bucket_of_lt.
    + exists (CATEGORY_LEVEL - 1)%nat. split_and!; [done | lia | done].
  - exists O. split_and!; [done | lia |].
    rewrite bool_decide_eq_true_2 by (rewrite H1; apply Z.mod_1_r).
    assert (bucket_of (length sequence) k = O) as ->.
    { unfold bucket_of, progress_step. rewrite H1. simpl. rewrite Z.div_1_r.
      rewrite Z.div_small by lia. done. }
    rewrite H1. simpl. unfold one_hot. by rewrite list_insert_insert_eq.
Qed.

(** When the length is a multiple of the category count, the last
    assignment runs over all rows: a row of an earlier bucket ends with a
    [1] in the column of its bucket and another in the last column. *)
Lemma progress_rows_clean_division sequence k :
  (0 < CATEGORY_LEVEL)%nat → (k < length sequence)%nat →
  len sequence mod Z.of_nat CATEGORY_LEVEL = 0 →
  ∃ t, progress_tensor sequence = inr t ∧
       tensor_row t k
       = <[(CATEGORY_LEVEL - 1)%nat:=1]> (one_hot (bucket_of (length sequence) k)).
Proof.
  intros HC Hk Hrem.
  destruct (progress_tensor_row sequence k HC Hk) as (t & Ht & _ & Hrow).
  exists t. rewrite Hrow. unfold progress_row.
  by rewrite bool_decide_eq_true_2.
Qed.

End Properties.

(** ** The pipeline on concrete inputs *)

(** C1, at a composition whose length is a multiple of the category count:
    with three categories and six events, [step] is [2] and the remainder is
    [0], so that the slice [progress[-0:]] of the last assignment is the
    whole array.  Rows [0 .. 3] of the progress tensor have two entries set
    to [1], their own category and the last one. *)
Theorem progress_tensor_clean_division :
  let sequence := [5; 258; 133; 7; 263; 135] in
  ∃ t, @progress_tensor example_constants sequence = inr t ∧
    shape t = [6%nat; 3%nat] ∧
    tensor_row t 0 = [1; 0; 1] ∧ tensor_row t 1 = [1; 0; 1] ∧
    tensor_row t 2 = [0; 1; 1] ∧ tensor_row t 3 = [0; 1; 1] ∧
    tensor_row t 4 = [0; 0; 1] ∧ tensor_row t 5 = [0; 0; 1].
Proof. eexists. split; [reflexivity|]. vm_compute. done. Qed.

(** C4, at a window as long as the composition: the start is drawn with
    [randint(0, len(sequence) - 1 - seq_len)].  For [seq_len = len(sequence)]
    the range is empty and [random_subseq] raises [ValueError]; for
    [seq_len = len(sequence) - 1] the only start is [0], and the start
    [len(sequence) - seq_len = 1] is never drawn. *)
Theorem random_subseq_whole_composition :
  (∀ g, @random_subseq example_constants example_composition 4 g = inl ValueError) ∧
  (∀ g, ∃ w, @random_subseq example_constants example_composition 3 g
             = inr ((w, 0, 3), rng_tail g)).
Proof.
  split; intros g.
  - apply random_subseq_empty_range. done.
  - destruct (random_subseq_spec (K:=example_constants) example_composition 3 g)
      as (index & Hindex & ->); [done|].
    unfold len in Hindex. simpl in Hindex.
    assert (index = 0) as -> by lia. eauto.
Qed.

Lemma generator_terminates_witness :
  ∃ w fin n,
    @run example_constants example_composition 3
         (length example_composition + Z.to_nat 3) (gen_init 2)
    = Some (w, fin, n) ∧
    (n ≤ length example_composition + Z.to_nat 3)%nat ∧
    (∀ st, current (@iteration example_constants example_composition st).2
           = S (current st)) ∧
    current fin = (2 + n)%nat ∧
    @generator example_constants example_composition 3 2 = w ∧
    len w = 3.
Proof.
  apply (@generator_terminates example_constants example_composition 2 3). lia.
Defined.

Lemma window_length_and_padding_witness :
  ∃ fin n emitted mid,
    let w := @generator example_constants example_composition 3 2 in
    let m := (n `min` (length example_composition - 2))%nat in
    @run example_constants example_composition 3
         (length example_composition + Z.to_nat 3) (gen_init 2)
    = Some (w, fin, n) ∧
    len w = 3 ∧
    @iterate_loop example_constants example_composition m (gen_init 2)
    = (emitted, mid) ∧
    w = emitted ++ replicate (n - m) (@PAD example_constants) ∧
    note_ons fin = note_ons mid.
Proof.
  apply (@window_length_and_padding example_constants example_composition 2 3).
  lia.
Defined.

Lemma no_orphan_note_offs_witness :
  let w := @generator example_constants example_composition 4 0 in
  5 ∈ @sounding example_constants (take 2 w) ∧
  ∃ j on, (j < 2)%nat ∧ w !! j = Some on ∧
    @classify example_constants on = NoteOn 5 ∧
    ∀ j' evt', (j < j' < 2)%nat → w !! j' = Some evt' →
               @classify example_constants evt' ≠ NoteOff 5.
Proof.
  apply (@no_orphan_note_offs example_constants example_composition 0 4 2 133 5).
  - unfold contiguous_layout. simpl. lia.
  - vm_compute. reflexivity.
  - reflexivity.
Defined.

Lemma augment_transposes_witness :
  let w := [5; 258; 133] in
  (∀ g, ∃ t w',
      -4 ≤ t ≤ 4 ∧
      @augment example_constants w g = inr (w', rng_tail g) ∧
      length w' = length w ∧
      (∀ k evt, w !! k = Some evt →
         w' !! k = Some (match @classify example_constants evt with
                         | NoteOn n => @encode example_constants (NoteOn (n + t))
                         | NoteOff n => @encode example_constants (NoteOff (n + t))
                         | TimeShift _ => evt
                         end)) ∧
      (t = 0 → w' = w)) ∧
  (∀ t g', -4 ≤ t ≤ 4 →
     ∃ g, @augment example_constants w g
          = inr (@encode example_constants ∘ transpose_event t
                 ∘ @classify example_constants <$> w, g')).
Proof.
  apply (@augment_transposes example_constants [5; 258; 133]).
  unfold contiguous_layout. simpl. lia.
Defined.

Lemma validation_split_partition_witness :
  ∃ train_indicies val_indicies train val g',
    split_indicies 20 (float_literal (1 # 20)) example_rng
    = inr ((train_indicies, val_indicies), g') ∧
    validation_split (example_corpus_of 20) (float_literal (1 # 20)) example_rng
    = inr ((train, val), g') ∧
    picks3 (example_corpus_of 20) train_indicies train ∧
    picks3 (example_corpus_of 20) val_indicies val ∧
    len val_indicies = 1 ∧
    len train_indicies = Z.of_nat 20 - 1 ∧
    train_indicies ++ val_indicies ≡ₚ seq 0 20 ∧
    (∀ j, j ∈ train_indicies → j ∉ val_indicies) ∧
    (∀ j, (j < 20)%nat ↔ j ∈ train_indicies ∨ j ∈ val_indicies).
Proof.
  apply (validation_split_partition (example_corpus_of 20)
           (float_literal (1 # 20)) example_rng 1).
  - reflexivity.
  - reflexivity.
  - vm_compute. reflexivity.
  - vm_compute. split; discriminate.
Defined.

Lemma validation_split_empty_side_witness :
  (∃ r val g',
     validation_split example_corpus (float_literal (1 # 20)) example_rng
     = inr ((([], [], []), val), g') ∧
     r ≡ₚ seq 0 1 ∧ picks3 example_corpus r val ∧
     length val.1.1 = 1%nat) ∧
  validation_split (example_corpus_of 20) (S754_zero false) example_rng
  = inl AssertionError.
Proof.
  split.
  - apply (proj1 (validation_split_empty_side example_corpus
                    (float_literal (1 # 20)) example_rng
                    eq_refl eq_refl ltac:(simpl; lia))).
    vm_compute. reflexivity.
  - apply (proj2 (validation_split_empty_side
                    (example_corpus_of 20) (S754_zero false) example_rng
                    eq_refl eq_refl ltac:(simpl; lia))).
    vm_compute. reflexivity.
Defined.

Lemma batcher_shapes_witness :
  ∃ batch events tags progress g',
    @sampler example_constants example_corpus
    = inr (@sample example_constants example_corpus) ∧
    draw_samples (@sample example_constants example_corpus) 8 (Z.to_nat 4)
                 example_rng = inr (batch, g') ∧
    length batch = Z.to_nat 4 ∧
    stack (fst ∘ fst <$> batch) = inr events ∧
    stack (snd ∘ fst <$> batch) = inr tags ∧
    stack (snd <$> batch) = inr progress ∧
    batcher (@sample example_constants example_corpus) 4 8 example_rng
    = inr ([events; tags; progress], g') ∧
    shape events = [Z.to_nat 4; Z.to_nat 8] ∧
    shape tags = [Z.to_nat 4; 1%nat] ∧
    shape progress = [Z.to_nat 4; Z.to_nat 8; @CATEGORY_LEVEL example_constants].
Proof.
  apply (@batcher_shapes example_constants _ _ _ 4 8 example_rng).
  - lia.
  - lia.
  - discriminate.
  - reflexivity.
  - repeat constructor.
  - repeat constructor.
Defined.

(** The number of validation indices is the ceiling of the rounded
    product, not of the product.  With the default fraction [0.05] and
    twenty compositions, the double [0.05] is above [1/20], so that twenty
    times its value is above [1] and has ceiling [2], while the rounded
    product is [1.0]: one validation index.  With the fraction [0.07] and a
    hundred compositions, [100 * 7/100] has ceiling [7], while the rounded
    product is above [7.0]: eight validation indices. *)
Lemma validation_split_rounded_product :
  (Qceiling (inject_Z 20 * float_value (float_literal (1 # 20)))%Q = 2 ∧
   num_val 20 (float_literal (1 # 20)) = inr 1 ∧
   ∃ train_indicies val_indicies train val g',
     split_indicies 20 (float_literal (1 # 20)) example_rng
     = inr ((train_indicies, val_indicies), g') ∧
     validation_split (example_corpus_of 20) (float_literal (1 # 20))
                      example_rng = inr ((train, val), g') ∧
     len val_indicies = 1 ∧ len train_indicies = 19 ∧
     length val.1.1 = 1%nat ∧ length train.1.1 = 19%nat) ∧
  (Qceiling (inject_Z 100 * (7 # 100))%Q = 7 ∧
   num_val 100 (float_literal (7 # 100)) = inr 8 ∧
   ∃ train_indicies val_indicies train val g',
     split_indicies 100 (float_literal (7 # 100)) example_rng
     = inr ((train_indicies, val_indicies), g') ∧
     validation_split (example_corpus_of 100) (float_literal (7 # 100))
                      example_rng = inr ((train, val), g') ∧
     len val_indicies = 8 ∧ len train_indicies = 92 ∧
     length val.1.1 = 8%nat ∧ length train.1.1 = 92%nat).
Proof.
  split.
  - split; [reflexivity|]. split; [vm_compute; reflexivity|].
    eexists _, _, _, _, _.
    split; [vm_compute; reflexivity|].
    split; [vm_compute; reflexivity|]. done.
  - split; [reflexivity|]. split; [vm_compute; reflexivity|].
    eexists _, _, _, _, _.
    split; [vm_compute; reflexivity|].
    split; [vm_compute; reflexivity|]. done.
Qed.

(** With the fraction [0.0] a corpus that is not empty is not split: the
    validation indices are the whole list where none were asked for, and the
    assertion on their number fails. *)
Lemma validation_split_zero_fraction :
  num_val 1 (S754_zero false) = inr 0 ∧
  split_indicies 1 (S754_zero false) example_rng = inl AssertionError ∧
  validation_split example_corpus (S754_zero false) example_rng
  = inl AssertionError.
Proof. vm_compute. done. Qed.

(** With the default fraction a corpus of one composition is split into an
    empty training split and a validation split with the composition, and
    no error is raised. *)
Lemma validation_split_empty_training :
  num_val 1 (float_literal (1 # 20)) = inr 1 ∧
  ∃ g', validation_split example_corpus (float_literal (1 # 20)) example_rng
        = inr ((([], [], []), example_corpus), g').
Proof. split; [vm_compute; reflexivity|]. eexists. vm_compute. reflexivity. Qed.

(** The batch of the scenario, four windows of eight events from the one
    composition of twenty events: the stacked style tags have the shape
    [[4, 1]], which is not the one-dimensional [[4]]. *)
Lemma batcher_tags_two_dimensional :
  ∃ events tags progress g',
    batcher (@sample example_constants example_corpus) 4 8 example_rng
    = inr ([events; tags; progress], g') ∧
    shape events = [4; 8]%nat ∧
    shape tags = [4; 1]%nat ∧
    shape tags ≠ [4%nat] ∧
    shape progress = [4; 8; 3]%nat.
Proof.
  eexists _, _, _, _. split; [vm_compute; reflexivity|].
  split_and!; try reflexivity. discriminate.
Qed.

(** * The rest of the pipeline *)

Section Pipeline.
Context `{K : Constants}.

(** ** Loading *)

Lemma load_file_fold SEQ_LEN files style_seq seq_len_sum :
  (foldl (load_file SEQ_LEN) (style_seq, seq_len_sum) files).1
  = style_seq ++ kept SEQ_LEN files.
Proof.
  revert style_seq seq_len_sum.
  induction files as [|outcome files IH]; intros style_seq seq_len_sum.
  - simpl. by rewrite app_nil_r.
  - simpl. unfold kept. destruct outcome as [sequence|]; simpl.
    + rewrite filter_cons. case_bool_decide as Hlong.
      * rewrite IH. case_decide; [|lia]. by rewrite <- app_assoc.
      * rewrite IH. case_decide; [lia|]. done.
    + apply IH.
Qed.

Lemma load_style_kept SEQ_LEN style_seqs files :
  load_style SEQ_LEN style_seqs files
  = if decide (kept SEQ_LEN files = []) then inl ZeroDivisionError
    else inr (style_seqs ++ [kept SEQ_LEN files]).
Proof.
  unfold load_style.
  pose proof (load_file_fold SEQ_LEN files [] 0) as Hfold.
  destruct (foldl (load_file SEQ_LEN) ([], 0) files) as [style_seq seq_len_sum].
  simpl in Hfold. subst style_seq. unfold len.
  destruct (kept SEQ_LEN files) as [|sequence rest].
  - rewrite bool_decide_eq_true_2 by done. by case_decide.
  - rewrite bool_decide_eq_false_2 by (simpl; lia). by case_decide.
Qed.

Lemma load_fold_raised SEQ_LEN styles e :
  foldl (λ acc files,
           match acc with
           | inl e => inl e
           | inr style_seqs => load_style SEQ_LEN style_seqs files
           end) (inl e) styles = inl e.
Proof. induction styles as [|files styles IH]; [done|]. simpl. apply IH. Qed.

Lemma load_fold SEQ_LEN styles style_seqs :
  foldl (λ acc files,
           match acc with
           | inl e => inl e
           | inr style_seqs => load_style SEQ_LEN style_seqs files
           end) (inr style_seqs) styles
  = if decide (Forall (λ files, kept SEQ_LEN files ≠ []) styles)
    then inr (style_seqs ++ (kept SEQ_LEN <$> styles))
    else inl ZeroDivisionError.
Proof.
  revert style_seqs. induction styles as [|files styles IH]; intros style_seqs.
  - cbn [foldl]. case_decide as Hall; [by rewrite app_nil_r|].
    exfalso. apply Hall. constructor.
  - cbn [foldl]. rewrite load_style_kept.
    destruct (decide (kept SEQ_LEN files = [])) as [Hnone|Hsome].
    + rewrite load_fold_raised.
      destruct (decide (Forall _ (files :: styles))) as [Hall|_]; [|done].
      by apply Forall_cons in Hall as [? _].
    + rewrite IH.
      destruct (decide (Forall _ styles)) as [Hall|Hnot];
        destruct (decide (Forall _ (files :: styles))) as [Hall'|Hnot'];
        try done.
      * by rewrite <- app_assoc.
      * exfalso. apply Hnot'. by constructor.
      * exfalso. by apply Forall_cons in Hall' as [_ ?].
Qed.

(** X1: [load] keeps, style by style and in the order of the files, the
    sequences that parse and have at least [SEQ_LEN] events.  It returns
    them when every style keeps a sequence, and it fails on the division by
    zero of the report as soon as one style keeps none; so every style of a
    loaded corpus has a sequence, and every sequence has at least [SEQ_LEN]
    events. *)
Theorem load_keeps_long_sequences SEQ_LEN styles :
  (Forall (λ files, kept SEQ_LEN files ≠ []) styles →
   load SEQ_LEN styles = inr (kept SEQ_LEN <$> styles)) ∧
  (Exists (λ files, kept SEQ_LEN files = []) styles →
   load SEQ_LEN styles = inl ZeroDivisionError) ∧
  (∀ style_seqs, load SEQ_LEN styles = inr style_seqs →
     length style_seqs = length styles ∧
     Forall (λ y, y ≠ [] ∧ Forall (λ sequence, SEQ_LEN ≤ len sequence) y)
            style_seqs).
Proof.
  unfold load. rewrite load_fold. split_and!.
  - intros Hall. by case_decide.
  - intros Hex. case_decide as Hall; [|done].
    apply Exists_exists in Hex as (files & Hin & Hnone).
    rewrite Forall_forall in Hall. by destruct (Hall files Hin).
  - intros style_seqs. case_decide as Hall; [|done]. intros [= <-].
    split; [by rewrite length_fmap|].
    apply Forall_fmap. eapply Forall_impl; [exact Hall|].
    intros files Hne. split; [done|]. unfold kept.
    apply Forall_forall. intros sequence Hin.
    by apply list_elem_of_filter in Hin as [? _].
Qed.

(** ** Flattening *)

Lemma map_result_progress_tensor (seqs : list (list Z)) :
  (0 < CATEGORY_LEVEL)%nat →
  map_result progress_tensor seqs
  = inr ((λ sequence, FloatTensor (length sequence) CATEGORY_LEVEL
                                  (progress_array (length sequence))) <$> seqs).
Proof.
  intros HC. induction seqs as [|sequence seqs IH]; [done|].
  cbn [map_result foldr]. fold (map_result progress_tensor seqs).
  rewrite IH. unfold progress_tensor at 1.
  rewrite bool_decide_eq_false_2 by lia. done.
Qed.

Lemma flat_tags_length {A} (f : nat → Z) (style_seqs : list (list A)) :
  length (concat (imap (λ s y, (λ _, f s) <$> y) style_seqs))
  = length (concat style_seqs).
Proof.
  revert f. induction style_seqs as [|y style_seqs IH]; intros f; [done|].
  rewrite imap_cons. simpl. rewrite !length_app, length_fmap.
  f_equal. apply (IH (f ∘ S)).
Qed.

Lemma flat_tags_lookup {A} (f : nat → Z) (style_seqs : list (list A)) s y j x :
  style_seqs !! s = Some y → y !! j = Some x →
  concat style_seqs !! (length (concat (take s style_seqs)) + j)%nat = Some x ∧
  concat (imap (λ s y, (λ _, f s) <$> y) style_seqs)
    !! (length (concat (take s style_seqs)) + j)%nat = Some (f s).
Proof.
  revert f s. induction style_seqs as [|y0 style_seqs IH]; intros f s Hs Hj;
    [done|].
  rewrite imap_cons. destruct s as [|s]; simpl in *.
  - injection Hs as ->. pose proof (lookup_lt_Some _ _ _ Hj) as Hlt. split.
    + by apply lookup_app_l_Some.
    + apply lookup_app_l_Some. by rewrite list_lookup_fmap, Hj.
  - destruct (IH (f ∘ S) s Hs Hj) as [Hseq Htag]. rewrite length_app. split.
    + rewrite lookup_app_r by lia. rewrite <- Hseq. f_equal. lia.
    + rewrite lookup_app_r by (rewrite length_fmap; lia).
      rewrite length_fmap. simpl in Htag. rewrite <- Htag. f_equal. lia.
Qed.

Lemma flat_tags_elem_of {A} (f : nat → Z) (style_seqs : list (list A)) t :
  t ∈ concat (imap (λ s y, (λ _, f s) <$> y) style_seqs) →
  ∃ s, (s < length style_seqs)%nat ∧ t = f s.
Proof.
  revert f. induction style_seqs as [|y style_seqs IH]; intros f.
  - simpl. by intros ?%elem_of_nil.
  - rewrite imap_cons. simpl. intros [Hin|Hin]%elem_of_app.
    + apply list_elem_of_fmap in Hin as (x & -> & _). exists O. split; [lia|done].
    + destruct (IH (f ∘ S) Hin) as (s & Hs & ->). exists (S s). split; [lia|done].
Qed.

(** X2: for a positive category count [process] succeeds on every corpus: the
    flattened compositions are the concatenation of the styles, there is one
    style tag and one progress tensor per composition, and the progress
    tensor at a position is the [progress_tensor] of the composition at that
    position, with one row per event. *)
Theorem process_aligned (style_seqs : list (list (list Z))) :
  (0 < CATEGORY_LEVEL)%nat →
  ∃ style_tags progresses,
    process style_seqs = inr (concat style_seqs, style_tags, progresses) ∧
    length style_tags = length (concat style_seqs) ∧
    length progresses = length (concat style_seqs) ∧
    Forall2 (λ sequence progress,
               progress_tensor sequence = inr progress ∧
               shape progress = [length sequence; CATEGORY_LEVEL] ∧
               length (data progress) = (length sequence * CATEGORY_LEVEL)%nat)
            (concat style_seqs) progresses.
Proof.
  intros HC. unfold process. rewrite map_result_progress_tensor by done.
  eexists _, _. split_and!; [done | apply flat_tags_length | by rewrite length_fmap |].
  apply Forall2_fmap_r, Forall_Forall2_diag, Forall_forall.
  intros sequence _. simpl.
  destruct (progress_tensor_shape sequence HC) as (t & Ht & Hshape & Hdata).
  unfold progress_tensor in *. rewrite bool_decide_eq_false_2 in * by lia.
  injection Ht as <-. done.
Qed.

(** X3: the flattening keeps the three lists of [process] aligned with the
    styles: composition [j] of style [s] sits at one position of the
    flattened corpus, where the style tag is [s] and the progress tensor is
    the one of that composition; and every style tag is the index of a
    style. *)
Theorem process_style_tags (style_seqs : list (list (list Z))) s y j sequence :
  (0 < CATEGORY_LEVEL)%nat →
  style_seqs !! s = Some y → y !! j = Some sequence →
  ∃ seqs style_tags progresses progress,
    process style_seqs = inr (seqs, style_tags, progresses) ∧
    seqs !! flat_index style_seqs s j = Some sequence ∧
    style_tags !! flat_index style_seqs s j = Some (Z.of_nat s) ∧
    progresses !! flat_index style_seqs s j = Some progress ∧
    progress_tensor sequence = inr progress ∧
    Forall (λ t, 0 ≤ t < len style_seqs) style_tags.
Proof.
  intros HC Hs Hj. unfold process. rewrite map_result_progress_tensor by done.
  destruct (flat_tags_lookup Z.of_nat style_seqs s y j sequence Hs Hj)
    as [Hseq Htag].
  eexists _, _, _, _. split_and!; [done | exact Hseq | exact Htag | | |].
  - rewrite list_lookup_fmap. unfold flat_index. rewrite Hseq. done.
  - unfold progress_tensor. by rewrite bool_decide_eq_false_2 by lia.
  - apply Forall_forall. intros t Hin.
    apply flat_tags_elem_of in Hin as (s' & Hs' & ->). unfold len. lia.
Qed.

(** X4: without categories ([CATEGORY_LEVEL = 0]) the first composition makes
    [process] fail on the division by zero of [progress_tensor]; only the
    corpus without compositions is processed, to three empty lists. *)
Theorem process_no_categories (style_seqs : list (list (list Z))) :
  CATEGORY_LEVEL = 0%nat →
  (concat style_seqs ≠ [] → process style_seqs = inl ZeroDivisionError) ∧
  (concat style_seqs = [] → process style_seqs = inr ([], [], [])).
Proof.
  intros HC. unfold process. split.
  - destruct (concat style_seqs) as [|sequence seqs]; [done|]. intros _.
    cbn [map_result foldr]. unfold progress_tensor at 1.
    by rewrite bool_decide_eq_true_2.
  - intros Hnil.
    pose proof (flat_tags_length Z.of_nat style_seqs) as Hlen.
    rewrite Hnil in Hlen |- *. apply nil_length_inv in Hlen.
    rewrite Hlen. done.
Qed.

(** ** One sample *)

Lemma randint_value a b g :
  a ≤ b → randint a b g = inr (a + g 0%nat mod (b - a + 1), rng_tail g).
Proof.
  intros Hab. unfold randint. rewrite bool_decide_eq_false_2 by lia. done.
Qed.

Lemma slice_one_lookup {A} (l : list A) (k : Z) x :
  0 ≤ k → l !! Z.to_nat k = Some x → slice l (Some k) (Some (k + 1)) = [x].
Proof.
  intros Hk Hx. pose proof (lookup_lt_Some _ _ _ Hx) as Hlt.
  unfold slice, slice_index. simpl. unfold len.
  rewrite !bool_decide_eq_false_2 by lia. rewrite !Z.min_l by lia.
  replace (Z.to_nat (k + 1 - k)) with 1%nat by lia.
  rewrite (drop_S _ _ _ Hx). done.
Qed.

(** What [sample] returns, in terms of the three raw integers it takes from
    the random source. *)
Lemma sample_run seqs style_tags progresses seq_len g sequence tag progress :
  let seq_id := g 0%nat mod len seqs in
  let index := g 1%nat mod (len sequence - seq_len) in
  let t := -4 + g 2%nat mod 9 in
  seqs !! Z.to_nat seq_id = Some sequence →
  style_tags !! Z.to_nat seq_id = Some tag →
  progresses !! Z.to_nat seq_id = Some progress →
  shape progress = [length sequence; CATEGORY_LEVEL] →
  0 ≤ seq_len < len sequence →
  sample (seqs, style_tags, progresses) seq_len g
  = inr ((LongTensor (augmented t (generator sequence seq_len (Z.to_nat index))),
          LongTensor [tag],
          Tensor [Z.to_nat seq_len; CATEGORY_LEVEL]
                 (take (Z.to_nat seq_len * CATEGORY_LEVEL)
                       (drop (Z.to_nat index * CATEGORY_LEVEL) (data progress)))),
         rng_tail (rng_tail (rng_tail g))).
Proof.
  intros seq_id index t Hseq Htag Hprog Hshape Hlen.
  pose proof (lookup_lt_Some _ _ _ Hseq) as Hlt.
  assert (0 < len seqs) as Hpos by (unfold len; lia).
  pose proof (Z.mod_pos_bound (g 0%nat) (len seqs) Hpos) as Hid. fold seq_id in Hid.
  assert (0 ≤ index < len sequence - seq_len) as Hindex
    by (apply Z.mod_pos_bound; lia).
  unfold sample, bind, lift, getitem, random_subseq, augment, bind, ret.
  rewrite randint_value by lia.
  replace (len seqs - 1 - 0 + 1) with (len seqs) by lia.
  rewrite Z.add_0_l. fold seq_id.
  rewrite Hseq. rewrite randint_value by lia.
  replace (len sequence - 1 - seq_len - 0 + 1) with (len sequence - seq_len) by lia.
  rewrite Z.add_0_l. change (rng_tail g 0%nat) with (g 1%nat). fold index.
  rewrite Hprog. rewrite randint_value by lia.
  replace (-4 + rng_tail (rng_tail g) 0%nat `mod` (4 - -4 + 1)) with t by done.
  unfold tensor_slice. rewrite Hshape.
  rewrite (slice_one_lookup style_tags seq_id tag) by (done || lia).
  unfold slice_index.
  rewrite (bool_decide_eq_false_2 (index < 0)) by lia.
  rewrite (bool_decide_eq_false_2 (index + seq_len < 0)) by lia.
  rewrite !Z.min_l by (unfold len in *; lia).
  replace (Z.to_nat (index + seq_len - index)) with (Z.to_nat seq_len) by lia.
  unfold stride. simpl. rewrite !Nat.mul_1_r.
  unfold augmented, gen_to_tensor. by case_bool_decide.
Qed.

Lemma tensor_slice_row (d : list Z) (c a n k : nat) :
  (k < n)%nat →
  take c (drop (k * c) (take (n * c) (drop (a * c) d)))
  = take c (drop ((a + k) * c) d).
Proof.
  intros Hk.
  replace (n * c)%nat with (k * c + (n * c - k * c))%nat by nia.
  rewrite <- take_drop_commute, drop_drop, take_take.
  rewrite Nat.min_l by nia. by rewrite Nat.mul_add_distr_r.
Qed.

(** X5: a sample keeps the three components aligned: the events are the
    augmented window of the drawn composition, the tag is the style tag of
    that composition, and row [k] of the progress slice is row [start + k] of
    the progress tensor of that composition, where [start] is the start of
    the window.  The sample takes three integers from the random source. *)
Theorem sample_aligned seqs style_tags progresses seq_len g sequence tag progress :
  seqs !! Z.to_nat (g 0%nat mod len seqs) = Some sequence →
  style_tags !! Z.to_nat (g 0%nat mod len seqs) = Some tag →
  progresses !! Z.to_nat (g 0%nat mod len seqs) = Some progress →
  shape progress = [length sequence; CATEGORY_LEVEL] →
  0 ≤ seq_len < len sequence →
  ∃ start t events progress_slice,
    0 ≤ start ≤ len sequence - 1 - seq_len ∧ -4 ≤ t ≤ 4 ∧
    sample (seqs, style_tags, progresses) seq_len g
    = inr ((events, LongTensor [tag], progress_slice),
           rng_tail (rng_tail (rng_tail g))) ∧
    events = LongTensor (augmented t (generator sequence seq_len (Z.to_nat start))) ∧
    shape progress_slice = [Z.to_nat seq_len; CATEGORY_LEVEL] ∧
    ∀ k, (k < Z.to_nat seq_len)%nat →
         tensor_row progress_slice k = tensor_row progress (Z.to_nat start + k).
Proof.
  intros Hseq Htag Hprog Hshape Hlen.
  assert (0 ≤ g 1%nat mod (len sequence - seq_len) < len sequence - seq_len)
    as Hindex by (apply Z.mod_pos_bound; lia).
  assert (0 ≤ g 2%nat mod 9 < 9) as Ht by (apply Z.mod_pos_bound; lia).
  eexists _, _, _, _. split_and!; cycle 4.
  - apply (sample_run seqs style_tags progresses seq_len g); done.
  - done.
  - done.
  - intros k Hk. unfold tensor_row. rewrite Hshape. simpl.
    by apply tensor_slice_row.
  - lia.
  - lia.
  - lia.
  - lia.
Qed.

Lemma sample_too_short seqs style_tags progresses seq_len g sequence :
  seqs !! Z.to_nat (g 0%nat mod len seqs) = Some sequence →
  len sequence ≤ seq_len →
  sample (seqs, style_tags, progresses) seq_len g = inl ValueError.
Proof.
  intros Hseq Hshort. pose proof (lookup_lt_Some _ _ _ Hseq) as Hlt.
  unfold sample, bind, lift, getitem.
  rewrite randint_value by (unfold len; lia).
  replace (len seqs - 1 - 0 + 1) with (len seqs) by lia.
  rewrite Z.add_0_l, Hseq. by rewrite random_subseq_empty_range.
Qed.

(** X6: a composition that is not longer than the window cannot be sampled: when
    the draw falls on it, [sample] raises the [ValueError] of the empty
    range of start indices, and so does every batch that begins with this
    draw. *)
Theorem sample_needs_longer_composition seqs style_tags progresses
    seq_len g sequence :
  seqs !! Z.to_nat (g 0%nat mod len seqs) = Some sequence →
  len sequence ≤ seq_len →
  sample (seqs, style_tags, progresses) seq_len g = inl ValueError ∧
  ∀ batch_size, 1 ≤ batch_size →
    batcher (sample (seqs, style_tags, progresses)) batch_size seq_len g
    = inl ValueError.
Proof.
  intros Hseq Hshort.
  pose proof (sample_too_short seqs style_tags progresses seq_len g sequence
                Hseq Hshort) as Hs.
  split; [done|]. intros batch_size Hb. unfold batcher, bind.
  destruct (Z.to_nat batch_size) as [|n] eqn:Hn; [lia|].
  cbn [draw_samples]. unfold bind at 1. by rewrite Hs.
Qed.

Lemma elem_of_concat_inv {A} (x : A) (ls : list (list A)) :
  x ∈ concat ls → ∃ l, x ∈ l ∧ l ∈ ls.
Proof.
  induction ls as [|l ls IH]; simpl.
  - by intros ?%elem_of_nil.
  - intros [Hin|Hin]%elem_of_app.
    + exists l. split; [done | by left].
    + destruct (IH Hin) as (l' & ? & ?). exists l'. split; [done | by right].
Qed.

Lemma process_value (style_seqs : list (list (list Z))) :
  (0 < CATEGORY_LEVEL)%nat →
  ∃ style_tags progresses,
    process style_seqs = inr (concat style_seqs, style_tags, progresses).
Proof.
  intros HC. unfold process. rewrite map_result_progress_tensor by done.
  by eexists _, _.
Qed.

(** X7: a corpus whose files have at most [SEQ_LEN] events, one of exactly
    [SEQ_LEN] in every style, passes [load], [process] and the construction
    of the sampler, and then no window of the default length [SEQ_LEN] can
    be drawn from it: every [sample] raises [ValueError]. *)
Theorem loaded_corpus_of_minimal_length SEQ_LEN styles :
  (0 < CATEGORY_LEVEL)%nat → styles ≠ [] →
  Forall (λ files, kept SEQ_LEN files ≠ []) styles →
  Forall (Forall (λ outcome, ∀ sequence,
                    outcome = Some sequence → len sequence ≤ SEQ_LEN)) styles →
  ∃ style_seqs data,
    load SEQ_LEN styles = inr style_seqs ∧
    process style_seqs = inr data ∧
    sampler data = inr (sample data) ∧
    ∀ g, sample data SEQ_LEN g = inl ValueError.
Proof.
  intros HC Hne Hkept Hshort.
  assert (load SEQ_LEN styles = inr (kept SEQ_LEN <$> styles)) as Hload.
  { unfold load. rewrite load_fold. by destruct (decide _). }
  destruct (process_value (kept SEQ_LEN <$> styles) HC)
    as (style_tags & progresses & Hprocess).
  eexists _, _. split; [exact Hload|]. split; [exact Hprocess|].
  assert (concat (kept SEQ_LEN <$> styles) ≠ []) as Hseqs.
  { destruct styles as [|files styles]; [done|].
    apply Forall_cons in Hkept as [Hfiles _]. simpl.
    destruct (kept SEQ_LEN files); [done|]. done. }
  split.
  - unfold sampler. rewrite bool_decide_eq_false_2; [done|].
    destruct (concat (kept SEQ_LEN <$> styles)); [done|]. unfold len. simpl. lia.
  - intros g.
    assert (0 < len (concat (kept SEQ_LEN <$> styles))) as Hpos.
    { destruct (concat (kept SEQ_LEN <$> styles)); [done|]. unfold len. simpl. lia. }
    pose proof (Z.mod_pos_bound (g 0%nat) _ Hpos) as Hid.
    destruct (lookup_lt_is_Some_2 (concat (kept SEQ_LEN <$> styles))
                (Z.to_nat (g 0%nat mod len (concat (kept SEQ_LEN <$> styles)))))
      as [sequence Hseq]; [unfold len in *; lia|].
    apply (sample_too_short _ _ _ _ _ sequence Hseq).
    apply list_elem_of_lookup_2 in Hseq.
    apply elem_of_concat_inv in Hseq as (y & Hin & Hy).
    apply list_elem_of_fmap in Hy as (files & -> & Hfiles).
    unfold kept in Hin. apply list_elem_of_filter in Hin as [_ Hin].
    apply list_elem_of_omap in Hin as (outcome & Hout & Hsome).
    rewrite Forall_forall in Hshort. specialize (Hshort files Hfiles).
    rewrite Forall_forall in Hshort. apply (Hshort outcome Hout). done.
Qed.

(** ** More on the window generator *)

Lemma iteration_yield sequence st evt :
  sequence !! current st = Some evt →
  (∀ note, classify evt = NoteOff note → note ∈ note_ons st) →
  iteration sequence st
  = (Yield evt,
     GenState (decode_evt (note_ons st) evt) (S (i st)) (S (current st))).
Proof.
  intros Hevt Hopen. pose proof (lookup_lt_Some _ _ _ Hevt) as Hlt.
  unfold iteration. rewrite bool_decide_eq_false_2 by lia.
  rewrite (list_lookup_total_correct _ _ _ Hevt).
  unfold decode_evt. unfold classify in *.
  destruct (bool_decide (evt < NOTE_OFF_OFFSET + NUM_NOTES)); [|done].
  destruct (bool_decide (evt >= NOTE_OFF_OFFSET)); [|done].
  rewrite bool_decide_eq_false_2; [done|].
  intros Hnot. apply Hnot. by apply Hopen.
Qed.

(** Inside the source an iteration yields the event under the cursor, or it
    skips it, and what it skips is a NoteOff. *)
Lemma iteration_source sequence st evt :
  sequence !! current st = Some evt →
  (iteration sequence st).1 = Yield evt ∨
  ((iteration sequence st).1 = Continue ∧ is_note_off evt = true).
Proof.
  intros Hevt. pose proof (lookup_lt_Some _ _ _ Hevt) as Hlt.
  unfold iteration. rewrite bool_decide_eq_false_2 by lia.
  rewrite (list_lookup_total_correct _ _ _ Hevt).
  unfold is_note_off, classify.
  destruct (bool_decide (evt < NOTE_OFF_OFFSET + NUM_NOTES)); [|by left].
  destruct (bool_decide (evt >= NOTE_OFF_OFFSET)); [|by left].
  destruct (bool_decide (evt - NOTE_OFF_OFFSET ∉ note_ons st)); [by right|by left].
Qed.

Lemma take_drop_S {A} (l : list A) c m x :
  l !! c = Some x → take (S m) (drop c l) = x :: take m (drop (S c) l).
Proof. intros Hx. by rewrite (drop_S _ _ _ Hx). Qed.

Lemma run_well_opened_slice sequence seq_len k fuel st :
  (k ≤ fuel)%nat → Z.of_nat (i st) + Z.of_nat k = seq_len →
  (current st + k ≤ length sequence)%nat →
  well_opened (note_ons st) (take k (drop (current st) sequence)) →
  ∃ fin, run sequence seq_len fuel st
         = Some (take k (drop (current st) sequence), fin, k).
Proof.
  revert fuel st. induction k as [|k IH]; intros fuel st Hfuel Hi Hc Hwo.
  - exists st. destruct fuel; simpl; rewrite bool_decide_eq_false_2 by lia; done.
  - destruct fuel as [|fuel]; [lia|].
    destruct (lookup_lt_is_Some_2 sequence (current st)) as [evt Hevt]; [lia|].
    rewrite (take_drop_S _ _ _ _ Hevt) in Hwo |- *. destruct Hwo as [Hopen Hwo].
    cbn [run]. rewrite bool_decide_eq_true_2 by lia.
    rewrite (iteration_yield _ _ _ Hevt Hopen).
    destruct (IH fuel (GenState (decode_evt (note_ons st) evt) (S (i st))
                                (S (current st))))
      as (fin & Hrun); [lia | simpl; lia | simpl; lia | done |].
    simpl in Hrun. rewrite Hrun. by exists fin.
Qed.

(** X8: a window that has no orphan NoteOff is copied: when the slice
    [sequence[index:index+seq_len]] lies inside the composition and decodes
    without orphans, the generator yields exactly that slice, without
    skipping and without padding. *)
Theorem generator_copies_well_opened_slice sequence index seq_len :
  0 ≤ seq_len → Z.of_nat index + seq_len ≤ len sequence →
  well_opened ∅ (slice sequence (Some (Z.of_nat index))
                       (Some (Z.of_nat index + seq_len))) →
  generator sequence seq_len index
  = slice sequence (Some (Z.of_nat index)) (Some (Z.of_nat index + seq_len)).
Proof.
  intros Hlen Hin.
  assert (slice sequence (Some (Z.of_nat index)) (Some (Z.of_nat index + seq_len))
          = take (Z.to_nat seq_len) (drop index sequence)) as ->.
  { unfold slice, slice_index. simpl.
    rewrite !bool_decide_eq_false_2 by lia. rewrite !Z.min_l by lia.
    f_equal; [lia|]. f_equal. lia. }
  intros Hwo. unfold len in Hin.
  destruct (run_well_opened_slice sequence seq_len (Z.to_nat seq_len)
              (length sequence + Z.to_nat seq_len) (gen_init index))
    as (fin & Hrun); [lia | simpl; lia | simpl; lia | done |].
  unfold generator. by rewrite Hrun.
Qed.

Lemma iterate_loop_source sequence m st :
  (current st + m ≤ length sequence)%nat →
  (iterate_loop sequence m st).1 `sublist_of` take m (drop (current st) sequence) ∧
  without_note_offs (iterate_loop sequence m st).1
  = without_note_offs (take m (drop (current st) sequence)).
Proof.
  revert st. induction m as [|m IH]; intros st Hc.
  - simpl. split; [constructor | done].
  - destruct (lookup_lt_is_Some_2 sequence (current st)) as [evt Hevt]; [lia|].
    rewrite (take_drop_S _ _ _ _ Hevt). cbn [iterate_loop].
    pose proof (iteration_current sequence st) as Hcur.
    pose proof (iteration_source sequence st evt Hevt) as Hsrc.
    destruct (iteration sequence st) as [a st']. simpl in Hcur, Hsrc.
    destruct (IH st') as [Hsub Hfilter]; [lia|]. rewrite Hcur in Hsub, Hfilter.
    destruct (iterate_loop sequence m st') as [w fin]. simpl in *.
    unfold without_note_offs in *.
    destruct Hsrc as [-> | [-> Hoff]]; simpl.
    + split; [by constructor|]. rewrite !filter_cons.
      destruct (decide (is_note_off evt = false)); by rewrite Hfilter.
    + split; [by constructor|].
      rewrite filter_cons_False by (by rewrite Hoff). done.
Qed.

(** The run of the generator: iterations over the source, then padding. *)
Lemma generator_decompose sequence index seq_len :
  ∃ n emitted mid,
    let m := (n `min` (length sequence - index))%nat in
    iterate_loop sequence m (gen_init index) = (emitted, mid) ∧
    generator sequence seq_len index = emitted ++ replicate (n - m) PAD.
Proof.
  destruct (generator_run sequence seq_len index) as (fin & n & Hrun & _).
  apply run_iterate in Hrun.
  set (m := (n `min` (length sequence - index))%nat).
  destruct (iterate_loop sequence m (gen_init index)) as [emitted mid] eqn:Hmid.
  exists n, emitted, mid. simpl. fold m. split; [done|].
  pose proof (iterate_loop_current sequence m (gen_init index)) as Hc.
  rewrite Hmid in Hc. simpl in Hc.
  assert (m = n ∨ (m < n)%nat ∧ (length sequence ≤ index + m)%nat) as Hcase by lia.
  assert (n = m + (n - m))%nat as Hnm by lia.
  clearbody m. rewrite Hnm, iterate_loop_app, Hmid in Hrun.
  destruct Hcase as [->|[Hlt Hend]].
  - rewrite Nat.sub_diag in *. simpl in Hrun. by injection Hrun as <- _.
  - rewrite iterate_loop_pad in Hrun by lia. by injection Hrun as <- _.
Qed.

(** X9: the generator invents nothing and reorders nothing: its window is a
    subsequence of the events that follow the start index, in their order,
    followed by padding events.  Of the source events it passes over it
    keeps every NoteOn and every TimeShift; what it leaves out are NoteOffs.
    It pads only once the source is used up. *)
Theorem generator_window_from_source sequence index seq_len :
  ∃ consumed pads emitted,
    generator sequence seq_len index = emitted ++ replicate pads PAD ∧
    emitted `sublist_of` take consumed (drop index sequence) ∧
    without_note_offs emitted
    = without_note_offs (take consumed (drop index sequence)) ∧
    ((0 < pads)%nat → (length sequence ≤ index + consumed)%nat).
Proof.
  destruct (generator_decompose sequence index seq_len)
    as (n & emitted & mid & Hmid & Hgen).
  simpl in Hmid, Hgen.
  exists (n `min` (length sequence - index))%nat,
         (n - n `min` (length sequence - index))%nat, emitted.
  destruct (decide (index ≤ length sequence)%nat) as [Hin|Hout].
  - pose proof (iterate_loop_source sequence
                  (n `min` (length sequence - index)) (gen_init index)) as Hsrc.
    rewrite Hmid in Hsrc. simpl in Hsrc.
    destruct Hsrc as [Hsub Hfilter]; [lia|]. split_and!; [done..|lia].
  - replace (n `min` (length sequence - index))%nat with O in * by lia.
    simpl in Hmid. injection Hmid as <- _.
    split_and!; [done | constructor | done | lia].
Qed.

Lemma run_note_ons sequence seq_len fuel st w fin n :
  contiguous_layout →
  run sequence seq_len fuel st = Some (w, fin, n) →
  note_ons fin = foldl decode_evt (note_ons st) w.
Proof.
  intros Hlay. revert st w fin n.
  induction fuel as [|fuel IH]; intros st w fin n; simpl.
  - case_bool_decide; [done|]. by intros [= <- <- <-].
  - case_bool_decide; [|by intros [= <- <- <-]].
    pose proof (iteration_decode sequence st Hlay) as Hdec.
    destruct (iteration sequence st) as [a st'] eqn:Hit. simpl in Hdec.
    destruct (run sequence seq_len fuel st') as [[[w' fin'] n']|] eqn:Hr; [|done].
    intros [= <- <- <-]. apply IH in Hr. rewrite Hr.
    destruct a as [evt|]; simpl.
    + destruct Hdec as [_ ->]. done.
    + by rewrite Hdec.
Qed.

(** X10: the set of sounding notes that the generator keeps is the set of notes
    that are open after decoding the window it has yielded; the padding
    events do not change it. *)
Theorem generator_tracks_sounding sequence index seq_len :
  contiguous_layout →
  ∃ fin n,
    run sequence seq_len (length sequence + Z.to_nat seq_len) (gen_init index)
    = Some (generator sequence seq_len index, fin, n) ∧
    note_ons fin = sounding (generator sequence seq_len index).
Proof.
  intros Hlay.
  destruct (generator_run sequence seq_len index) as (fin & n & Hrun & _).
  exists fin, n. split; [done|].
  by apply (run_note_ons _ _ _ _ _ _ _ Hlay) in Hrun.
Qed.

(** ** More on augmentation *)

(** X11: a transposition keeps the kind of a pitch event exactly when the note
    it moves to is still a note: a NoteOn pushed above the top note gets the
    code of a NoteOff, and a NoteOff leaves the NoteOff range on either
    side.  A TimeShift is never changed. *)
Theorem transpose_keeps_kind_in_range t note :
  contiguous_layout → 0 ≤ note < NUM_NOTES →
  (classify (transpose_evt t (encode (NoteOn note))) = NoteOn (note + t)
   ↔ note + t < NUM_NOTES) ∧
  (NUM_NOTES ≤ note + t < 2 * NUM_NOTES →
   classify (transpose_evt t (encode (NoteOn note)))
   = NoteOff (note + t - NUM_NOTES)) ∧
  (classify (transpose_evt t (encode (NoteOff note))) = NoteOff (note + t)
   ↔ 0 ≤ note + t < NUM_NOTES) ∧
  (∀ bucket, 0 ≤ bucket →
     transpose_evt t (encode (TimeShift bucket)) = encode (TimeShift bucket)).
Proof.
  intros (Hoff & Htime & Hn & Hq) Hnote.
  unfold transpose_evt, classify, encode. split_and!.
  - rewrite (bool_decide_eq_true_2 (NOTE_ON_OFFSET + note < TIME_OFFSET)) by lia.
    repeat case_bool_decide; split; intros H'; try lia; try done;
      try (f_equal; lia); try (injection H'; lia).
  - intros Hrange.
    rewrite (bool_decide_eq_true_2 (NOTE_ON_OFFSET + note < TIME_OFFSET)) by lia.
    rewrite !bool_decide_eq_true_2 by lia. f_equal. lia.
  - rewrite (bool_decide_eq_true_2 (NOTE_OFF_OFFSET + note < TIME_OFFSET)) by lia.
    repeat case_bool_decide; split; intros H'; try lia; try done;
      try (f_equal; lia); try (injection H'; lia).
  - intros bucket Hb. by rewrite bool_decide_eq_false_2 by lia.
Qed.

(** X12: transposing back undoes a transposition, as long as no pitch event was
    moved out of the pitch range: augmenting with the draw [t] and then with
    the draw [-t] returns the window. *)
Theorem augment_round_trip (w : list Z) t g :
  -4 ≤ t ≤ 4 →
  Forall (λ evt, evt < TIME_OFFSET → evt + t < TIME_OFFSET) w →
  ∃ w',
    augment w (rng_cons (t + 4) (rng_cons (- t + 4) g))
    = inr (w', rng_cons (- t + 4) g) ∧
    w' = augmented t w ∧
    augment w' (rng_cons (- t + 4) g) = inr (w, g).
Proof.
  intros Ht Hin.
  assert (∀ u g', -4 ≤ u ≤ 4 → ∀ v,
            augment v (rng_cons (u + 4) g') = inr (augmented u v, g')) as Haug.
  { intros u g' Hu v. unfold augment, bind.
    replace (u + 4) with (u - -4) by lia. rewrite randint_any by lia.
    unfold augmented. by case_bool_decide. }
  exists (augmented t w). split_and!; [by apply Haug | done |].
  rewrite Haug by lia. do 2 f_equal. unfold augmented.
  destruct (decide (t = 0)) as [->|Ht0].
  - by rewrite !bool_decide_eq_true_2.
  - rewrite !bool_decide_eq_false_2 by lia.
    rewrite <- list_fmap_compose. rewrite <- (list_fmap_id w) at 2.
    apply Forall_fmap_ext_1. eapply Forall_impl; [exact Hin|].
    intros evt Hevt. simpl. unfold transpose_evt.
    destruct (decide (evt < TIME_OFFSET)) as [Hp|Hp].
    + rewrite (bool_decide_eq_true_2 (evt < TIME_OFFSET)) by done.
      rewrite bool_decide_eq_true_2 by (by apply Hevt). lia.
    + rewrite (bool_decide_eq_false_2 (evt < TIME_OFFSET)) by done.
      by rewrite bool_decide_eq_false_2.
Qed.

(** ** More on the choice of the window *)

(** X13: [random_subseq] succeeds exactly on compositions that are longer than
    the window.  The start it draws then lies in [0 .. len - 1 - seq_len],
    every start of this range is drawn from some random source, and the
    returned index range is [start, start + seq_len), which ends before the
    last event of the composition. *)
Theorem random_subseq_start_range sequence seq_len :
  (len sequence ≤ seq_len →
   ∀ g, random_subseq sequence seq_len g = inl ValueError) ∧
  (seq_len < len sequence →
   (∀ g, ∃ start,
      0 ≤ start ∧ start + seq_len ≤ len sequence - 1 ∧
      random_subseq sequence seq_len g
      = inr ((generator sequence seq_len (Z.to_nat start), start, start + seq_len),
             rng_tail g)) ∧
   (∀ start g', 0 ≤ start → start + seq_len ≤ len sequence - 1 →
      ∃ g, random_subseq sequence seq_len g
           = inr ((generator sequence seq_len (Z.to_nat start), start,
                   start + seq_len), g'))).
Proof.
  split_and!.
  - intros Hshort g. by apply random_subseq_empty_range.
  - intros Hlong. split.
    + intros g. destruct (random_subseq_spec sequence seq_len g Hlong)
        as (start & Hstart & Heq).
      exists start. split_and!; [lia | lia | done].
    + intros start g' Hstart Hend. exists (rng_cons start g').
      apply random_subseq_any. lia.
Qed.

(** ** More on the split *)

Lemma slice_val_length {A} (r : list A) (k : Z) :
  0 < len r → ¬ 1 ≤ k ≤ len r → len (slice r (Some (- k)) None) ≠ k.
Proof.
  intros Hr Hk. unfold slice, slice_index. simpl. unfold len in *.
  rewrite length_take, length_drop.
  case_bool_decide; lia.
Qed.

(** X14: the assertions of [validation_split] refuse every fraction that asks
    for no validation index, for a negative number of them or for more than
    the corpus has: on a corpus that is not empty the function then stops
    with an [AssertionError].  The empty corpus is split into two empty
    splits by every finite fraction, without a draw from the random source.
    A fraction whose product with the corpus size has no ceiling, a NaN or
    an infinity, ends the split with the error of the ceiling; on the empty
    corpus that is the [ValueError] of a NaN product. *)
Theorem validation_split_assertion (data : dataset) split g :
  let n := length data.1.1 in
  ((0 < n)%nat → ∀ k, num_val n split = inr k → ¬ 1 ≤ k ≤ Z.of_nat n →
   validation_split data split g = inl AssertionError) ∧
  (n = 0%nat → float_finite split = true →
   validation_split data split g = inr ((([], [], []), ([], [], [])), g)) ∧
  (∀ e, num_val n split = inl e → validation_split data split g = inl e) ∧
  (n = 0%nat → float_finite split = false →
   validation_split data split g = inl ValueError).
Proof.
  intros n. split_and!.
  - intros Hn k Hnum Hk. rewrite validation_split_unfold. fold n.
    destruct (split_indicies_unfold n split g)
      as (r & g' & Hsh & Hperm & Hlr & ->).
    rewrite Hnum. cbv zeta.
    rewrite bool_decide_eq_false_2; [done|].
    apply slice_val_length; lia.
  - intros Hn Hfin. rewrite validation_split_unfold. fold n. rewrite Hn.
    destruct data as [[seqs style_tags] progresses].
    unfold split_indicies, bind, shuffle. simpl.
    destruct split; try done.
  - intros e Hnum. rewrite validation_split_unfold. fold n.
    by rewrite (split_indicies_raises n split g e).
  - intros Hn Hfin. rewrite validation_split_unfold. fold n. rewrite Hn.
    unfold split_indicies, bind, shuffle. simpl.
    destruct split; try done.
Qed.

(** ** More on the progress labels *)

(** X16: when the length is a multiple of the category count, every row outside
    the last bucket carries two labels: the category of its bucket and the
    last category. *)
Theorem progress_rows_two_labels sequence k :
  (0 < CATEGORY_LEVEL)%nat →
  len sequence mod Z.of_nat CATEGORY_LEVEL = 0 →
  Z.of_nat k < len sequence - len sequence / Z.of_nat CATEGORY_LEVEL →
  ∃ t c, progress_tensor sequence = inr t ∧
    (c < CATEGORY_LEVEL - 1)%nat ∧
    tensor_row t k !! c = Some 1 ∧
    tensor_row t k !! (CATEGORY_LEVEL - 1)%nat = Some 1.
Proof.
  intros HC Hrem Hk. unfold len in *.
  assert (0 ≤ Z.of_nat (length sequence) / Z.of_nat CATEGORY_LEVEL) as Hstep
    by (apply Z.div_pos; lia).
  assert (k < length sequence)%nat as Hlt by lia.
  destruct (progress_rows_clean_division sequence k HC Hlt Hrem) as (t & Ht & Hrow).
  assert (Z.of_nat (length sequence)
          = Z.of_nat CATEGORY_LEVEL * progress_step (length sequence)) as Hdm.
  { unfold progress_step.
    rewrite (Z.div_mod (Z.of_nat (length sequence)) (Z.of_nat CATEGORY_LEVEL))
      at 1 by lia. lia. }
  fold (progress_step (length sequence)) in Hk, Hstep.
  assert (0 < progress_step (length sequence)) as Hpos by nia.
  assert (bucket_of (length sequence) k < CATEGORY_LEVEL - 1)%nat as Hb.
  { unfold bucket_of.
    assert (Z.of_nat k / progress_step (length sequence)
            < Z.of_nat CATEGORY_LEVEL - 1)
      by (apply Z.div_lt_upper_bound; nia).
    assert (0 ≤ Z.of_nat k / progress_step (length sequence))
      by (apply Z.div_pos; lia).
    lia. }
  exists t, (bucket_of (length sequence) k). rewrite Hrow. split_and!; [done..| |].
  - rewrite list_lookup_insert_ne by lia.
    rewrite one_hot_lookup by lia. by rewrite decide_True.
  - rewrite list_lookup_insert_eq; [done|]. rewrite one_hot_length. lia.
Qed.

(** X17: when the length is not a multiple of the category count the labels
    never go back: along the composition the category of a row can only
    grow.  The last row is in the last category, and the first row is in
    category [0] as soon as there is an event for every category. *)
Theorem progress_categories_monotone sequence k k' :
  (0 < CATEGORY_LEVEL)%nat →
  len sequence mod Z.of_nat CATEGORY_LEVEL ≠ 0 →
  (k ≤ k')%nat → (k' < length sequence)%nat →
  ∃ t c c', progress_tensor sequence = inr t ∧
    tensor_row t k = one_hot c ∧ tensor_row t k' = one_hot c' ∧
    (c ≤ c')%nat ∧ (c' < CATEGORY_LEVEL)%nat ∧
    (k' = (length sequence - 1)%nat → c' = (CATEGORY_LEVEL - 1)%nat) ∧
    (k = 0%nat → (CATEGORY_LEVEL ≤ length sequence)%nat → c = 0%nat).
Proof.
  intros HC Hrem Hkk Hk'. unfold len in Hrem.
  destruct (progress_tensor_row sequence k HC) as (t & Ht & _ & Hrow); [lia|].
  destruct (progress_tensor_row sequence k' HC Hk') as (t' & Ht' & _ & Hrow').
  rewrite Ht in Ht'. injection Ht' as <-.
  set (n := length sequence) in *.
  destruct (category_steps_le n CATEGORY_LEVEL HC) as [Hstep Hhi]; [lia|].
  assert (0 ≤ Z.of_nat n mod Z.of_nat CATEGORY_LEVEL < Z.of_nat CATEGORY_LEVEL)
    as Hbound by (apply Z.mod_pos_bound; lia).
  assert (Z.of_nat n = Z.of_nat CATEGORY_LEVEL * progress_step n
                       + Z.of_nat n mod Z.of_nat CATEGORY_LEVEL)
    as Hdm by (apply Z.div_mod; lia).
  unfold progress_row in Hrow, Hrow'.
  rewrite bool_decide_eq_false_2 in Hrow, Hrow' by done.
  exists t. rewrite Hrow, Hrow'.
  assert (k = 0%nat → (CATEGORY_LEVEL ≤ n)%nat → bucket_of n k = 0%nat ∧
            Z.of_nat k < Z.of_nat CATEGORY_LEVEL * progress_step n) as Hfirst.
  { intros -> Hlong.
    assert (1 ≤ progress_step n)
      by (unfold progress_step; apply Z.div_le_lower_bound; lia).
    split; [|nia]. unfold bucket_of. rewrite Z.div_0_l by lia. done. }
  destruct (decide (Z.of_nat k' < Z.of_nat CATEGORY_LEVEL * progress_step n))
    as [Hin'|Hout'].
  - rewrite !bool_decide_eq_true_2 by lia.
    exists (bucket_of n k), (bucket_of n k').
    assert (bucket_of n k ≤ bucket_of n k')%nat as Hmono.
    { unfold bucket_of.
      assert (0 < progress_step n) by nia.
      assert (Z.of_nat k / progress_step n ≤ Z.of_nat k' / progress_step n)
        by (apply Z.div_le_mono; lia).
      assert (0 ≤ Z.of_nat k / progress_step n) by (apply Z.div_pos; lia).
      lia. }
    pose proof (bucket_of_lt n k' HC Hin') as Hlt'.
    split_and!; [done | done | done | done | done | lia |].
    intros H0 Hlong. by destruct (Hfirst H0 Hlong).
  - rewrite (bool_decide_eq_false_2 (Z.of_nat k' < _)) by done.
    destruct (decide (Z.of_nat k < Z.of_nat CATEGORY_LEVEL * progress_step n))
      as [Hin|Hout].
    + rewrite bool_decide_eq_true_2 by done.
      exists (bucket_of n k), (CATEGORY_LEVEL - 1)%nat.
      pose proof (bucket_of_lt n k HC Hin) as Hlt.
      split_and!; [done | done | done | lia | lia | done |].
      intros H0 Hlong. by destruct (Hfirst H0 Hlong).
    + rewrite bool_decide_eq_false_2 by done.
      exists (CATEGORY_LEVEL - 1)%nat, (CATEGORY_LEVEL - 1)%nat.
      split_and!; [done | done | done | lia | lia | done |].
      intros H0 Hlong. destruct (Hfirst H0 Hlong) as [_ ?]. lia.
Qed.

(** X18: a composition with fewer events than categories has no bucket of its
    own: the step is [0] and every row is put into the last category. *)
Theorem progress_short_composition sequence k :
  (length sequence < CATEGORY_LEVEL)%nat → (k < length sequence)%nat →
  ∃ t, progress_tensor sequence = inr t ∧
       shape t = [length sequence; CATEGORY_LEVEL] ∧
       tensor_row t k = one_hot (CATEGORY_LEVEL - 1).
Proof.
  intros Hshort Hk.
  destruct (progress_tensor_row sequence k) as (t & Ht & Hshape & Hrow);
    [lia | done |].
  exists t. split_and!; [done..|]. rewrite Hrow. unfold progress_row.
  rewrite Z.mod_small by lia. rewrite bool_decide_eq_false_2 by lia.
  unfold progress_step. rewrite Z.div_small by lia.
  rewrite bool_decide_eq_false_2 by lia. done.
Qed.

(** ** From the styles to a batch *)

Lemma sample_shaped_tagged seqs style_tags progresses seq_len g :
  0 ≤ seq_len → seqs ≠ [] → length style_tags = length seqs →
  Forall2 (λ s p, shape p = [length s; CATEGORY_LEVEL]) seqs progresses →
  Forall (λ s, seq_len < len s) seqs →
  ∃ x g', sample (seqs, style_tags, progresses) seq_len g = inr (x, g') ∧
          sample_shaped seq_len x ∧ sample_tagged style_tags x.
Proof.
  intros Hlen Hne Htags Hprog Hlong.
  assert (0 < len seqs) as Hpos by (destruct seqs; [done|]; unfold len; simpl; lia).
  pose proof (Z.mod_pos_bound (g 0%nat) _ Hpos) as Hid.
  destruct (lookup_lt_is_Some_2 seqs (Z.to_nat (g 0%nat mod len seqs)))
    as [sequence Hseq]; [unfold len in *; lia|].
  destruct (lookup_lt_is_Some_2 style_tags (Z.to_nat (g 0%nat mod len seqs)))
    as [tag Htag]; [unfold len in *; lia|].
  destruct (Forall2_lookup_l _ _ _ _ _ Hprog Hseq) as (progress & Hpr & Hshape).
  rewrite Forall_lookup in Hlong. specialize (Hlong _ _ Hseq).
  eexists _, _. split.
  - by apply (sample_run seqs style_tags progresses seq_len g sequence tag progress).
  - split.
    + split_and!; simpl; [|done..].
      unfold augmented. case_bool_decide; rewrite ?length_fmap;
        by destruct (generator_run sequence seq_len
              (Z.to_nat (g 1%nat `mod` (len sequence - seq_len))))
          as (_ & _ & _ & _ & -> & _).
    + exists tag. split; [|done]. by eapply list_elem_of_lookup_2.
Qed.

Lemma draw_samples_shaped_tagged seqs style_tags progresses seq_len n g :
  0 ≤ seq_len → seqs ≠ [] → length style_tags = length seqs →
  Forall2 (λ s p, shape p = [length s; CATEGORY_LEVEL]) seqs progresses →
  Forall (λ s, seq_len < len s) seqs →
  ∃ batch g',
    draw_samples (sample (seqs, style_tags, progresses)) seq_len n g
    = inr (batch, g') ∧
    length batch = n ∧
    Forall (λ x, sample_shaped seq_len x ∧ sample_tagged style_tags x) batch.
Proof.
  intros Hlen Hne Htags Hprog Hlong. revert g.
  induction n as [|n IH]; intros g.
  - exists [], g. done.
  - destruct (sample_shaped_tagged seqs style_tags progresses seq_len g)
      as (x & g1 & Hx & Hsh & Htg); [done..|].
    destruct (IH g1) as (batch & g' & Hb & Hn & Hall).
    exists (x :: batch), g'. cbn [draw_samples]. unfold bind at 1. rewrite Hx.
    unfold bind at 1. rewrite Hb. split_and!; [done | simpl; lia | by constructor].
Qed.

(** X19: from the styles to a batch: on a corpus with a composition, all of whose
    compositions are longer than the window, [process], the construction of
    the sampler and a batch of [B >= 1] windows succeed.  The batch has the
    shapes [[B, L]], [[B, 1]] and [[B, L, C]], it has one style tag per
    window, and every style tag is the index of a style of the corpus. *)
Theorem batch_of_processed_corpus (style_seqs : list (list (list Z)))
    batch_size seq_len g :
  (0 < CATEGORY_LEVEL)%nat → 1 ≤ batch_size → 0 ≤ seq_len →
  concat style_seqs ≠ [] →
  Forall (Forall (λ sequence, seq_len < len sequence)) style_seqs →
  ∃ corpus events tags progress g',
    process style_seqs = inr corpus ∧
    sampler corpus = inr (sample corpus) ∧
    batcher (sample corpus) batch_size seq_len g
    = inr ([events; tags; progress], g') ∧
    shape events = [Z.to_nat batch_size; Z.to_nat seq_len] ∧
    shape tags = [Z.to_nat batch_size; 1%nat] ∧
    shape progress = [Z.to_nat batch_size; Z.to_nat seq_len; CATEGORY_LEVEL] ∧
    length (data tags) = Z.to_nat batch_size ∧
    Forall (λ tag, 0 ≤ tag < len style_seqs) (data tags).
Proof.
  intros HC Hb Hlen Hne Hlong.
  set (seqs := concat style_seqs).
  set (style_tags := concat (imap (λ s y, (λ _, Z.of_nat s) <$> y) style_seqs)).
  set (progresses :=
         (λ sequence, FloatTensor (length sequence) CATEGORY_LEVEL
                                  (progress_array (length sequence))) <$> seqs).
  assert (process style_seqs = inr (seqs, style_tags, progresses)) as Hproc.
  { unfold process. by rewrite map_result_progress_tensor. }
  assert (Forall (λ s, seq_len < len s) seqs) as Hlong'.
  { apply Forall_forall. intros sequence Hin.
    apply elem_of_concat_inv in Hin as (y & Hin & Hy).
    rewrite Forall_forall in Hlong. specialize (Hlong y Hy).
    rewrite Forall_forall in Hlong. by apply Hlong. }
  destruct (draw_samples_shaped_tagged seqs style_tags progresses seq_len
              (Z.to_nat batch_size) g) as (batch & g' & Hdraw & Hn & Hall);
    [done | done | apply flat_tags_length | | done |].
  { apply Forall2_fmap_r, Forall_Forall2_diag, Forall_forall. by intros s _. }
  assert (∀ {A} (f : tensor * tensor * tensor → A), f <$> batch ≠ []) as Hfne.
  { intros A f. destruct batch; [simpl in Hn; lia | done]. }
  pose proof (stack_shape (fst ∘ fst <$> batch) [Z.to_nat seq_len] (Hfne _ _)) as He.
  pose proof (stack_shape (snd ∘ fst <$> batch) [1%nat] (Hfne _ _)) as Ht.
  pose proof (stack_shape (snd <$> batch) [Z.to_nat seq_len; CATEGORY_LEVEL]
                (Hfne _ _)) as Hp.
  rewrite length_fmap, Hn in He, Ht, Hp. rewrite Forall_fmap in He, Ht, Hp.
  assert (Forall (λ x, shape x.1.1 = [Z.to_nat seq_len]) batch) as H1
    by (eapply Forall_impl; [exact Hall|]; intros x [Hx _]; apply Hx).
  assert (Forall (λ x, shape x.1.2 = [1%nat]) batch) as H2
    by (eapply Forall_impl; [exact Hall|]; intros x [Hx _]; apply Hx).
  assert (Forall (λ x, shape x.2 = [Z.to_nat seq_len; CATEGORY_LEVEL]) batch) as H3
    by (eapply Forall_impl; [exact Hall|]; intros x [Hx _]; apply Hx).
  specialize (He H1). specialize (Ht H2). specialize (Hp H3).
  assert (Forall (λ tag, tag ∈ style_tags)
                 (concat (data <$> (snd ∘ fst <$> batch)))
          ∧ length (concat (data <$> (snd ∘ fst <$> batch))) = length batch)
    as [Htags Hcount].
  { clear -Hall. induction Hall as [|x batch [_ (tag & Hin & Hdata)] _ [IH1 IH2]].
    - split; [constructor | done].
    - rewrite !fmap_cons. cbn [concat]. change ((snd ∘ fst) x) with x.1.2.
      rewrite Hdata. cbn [app length]. split; [by constructor | by rewrite IH2]. }
  eexists _, _, _, _, g'. split; [exact Hproc|]. split_and!.
  - unfold sampler. rewrite bool_decide_eq_false_2; [done|].
    fold seqs in Hne. destruct seqs; [done|]. unfold len. simpl. lia.
  - unfold batcher, bind, lift. rewrite Hdraw.
    unfold stack_columns. destruct batch as [|x batch]; [simpl in Hn; lia|].
    rewrite He, Ht, Hp. done.
  - done.
  - done.
  - done.
  - simpl. by rewrite Hcount.
  - simpl. eapply Forall_impl; [exact Htags|]. intros tag Hin.
    apply flat_tags_elem_of in Hin as (s & Hs & ->). unfold len. lia.
Qed.

(** ** The causal convolution *)

(** X20: a causal convolution keeps the time axis: a layer that the constructor
    accepts in causal mode has the border mode [valid], and with a stride
    [s] other than [0] it maps [length] time steps to
    [(length + s - 1) // s] of them, so that with the default stride [1] the
    output has as many time steps as the input, whatever the filter length
    and the dilation.  The constructor accepts the stride [0], with which
    the output shape fails on the division; a time axis of unknown length
    fails on the addition of the padding.  The constructor refuses the
    causal mode with any other border mode. *)
Theorem causal_convolution_keeps_length nb_filter filter_length border
    subsample_length atrous_rate layer batch (length : Z) channels :
  CausalAtrousConvolution1D nb_filter filter_length border subsample_length
                            atrous_rate true = inr layer →
  border = Valid ∧
  (subsample_length ≠ 0 →
   get_output_shape_for layer (batch, Some length, channels)
   = inr (batch, Some ((length + subsample_length - 1) / subsample_length),
          nb_filter)) ∧
  (subsample_length = 1 →
   get_output_shape_for layer (batch, Some length, channels)
   = inr (batch, Some length, nb_filter)) ∧
  (subsample_length = 0 →
   get_output_shape_for layer (batch, Some length, channels)
   = inl ZeroDivisionError) ∧
  get_output_shape_for layer (batch, None, channels) = inl TypeError ∧
  (∀ other, other ≠ Valid →
     CausalAtrousConvolution1D nb_filter filter_length other subsample_length
                               atrous_rate true = inl ValueError).
Proof.
  unfold CausalAtrousConvolution1D. simpl.
  destruct border; simpl; [|done..]. intros [= <-].
  assert (subsample_length ≠ 0 →
          get_output_shape_for
            (ConvLayer nb_filter filter_length Valid (subsample_length, 1)
                       atrous_rate true) (batch, Some length, channels)
          = inr (batch, Some ((length + subsample_length - 1) / subsample_length),
                 nb_filter))
    as Hshape.
  { intros Hs. unfold get_output_shape_for, conv_output_length. simpl.
    rewrite bool_decide_eq_false_2 by done.
    do 5 f_equal. lia. }
  split_and!; [done | done | | | done |].
  - intros ->. rewrite Hshape by done. do 4 f_equal.
    rewrite Z.div_1_r. lia.
  - intros ->. done.
  - intros other Hother. by destruct other.
Qed.

End Pipeline.

(** ** The rest of the pipeline on concrete inputs *)

Lemma load_keeps_long_sequences_witness :
  load 4 example_files = inr (kept 4 <$> example_files) ∧
  load 4 [[None; Some [5; 258]]] = inl ZeroDivisionError.
Proof.
  split.
  - apply (proj1 (load_keeps_long_sequences 4 example_files)).
    repeat constructor; discriminate.
  - apply (proj1 (proj2 (load_keeps_long_sequences 4 [[None; Some [5; 258]]]))).
    constructor. reflexivity.
Defined.

Lemma process_aligned_witness :
  ∃ style_tags progresses,
    @process example_constants example_styles
    = inr (concat example_styles, style_tags, progresses) ∧
    length style_tags = length (concat example_styles) ∧
    length progresses = length (concat example_styles) ∧
    Forall2 (λ sequence progress,
               @progress_tensor example_constants sequence = inr progress ∧
               shape progress = [length sequence; 3%nat] ∧
               length (data progress) = (length sequence * 3)%nat)
            (concat example_styles) progresses.
Proof.
  apply (@process_aligned example_constants example_styles). simpl. lia.
Defined.

Lemma process_style_tags_witness :
  ∃ seqs style_tags progresses progress,
    @process example_constants example_styles
    = inr (seqs, style_tags, progresses) ∧
    seqs !! flat_index example_styles 1 0 = Some [7; 258; 135; 5; 258; 133; 260] ∧
    style_tags !! flat_index example_styles 1 0 = Some (Z.of_nat 1) ∧
    progresses !! flat_index example_styles 1 0 = Some progress ∧
    @progress_tensor example_constants [7; 258; 135; 5; 258; 133; 260]
    = inr progress ∧
    Forall (λ t, 0 ≤ t < len example_styles) style_tags.
Proof.
  apply (@process_style_tags example_constants example_styles 1
           [[7; 258; 135; 5; 258; 133; 260]] 0).
  - simpl. lia.
  - reflexivity.
  - reflexivity.
Defined.

Lemma process_no_categories_witness :
  (concat example_styles ≠ [] →
   @process no_category_constants example_styles = inl ZeroDivisionError) ∧
  (concat example_styles = [] →
   @process no_category_constants example_styles = inr ([], [], [])).
Proof.
  apply (@process_no_categories no_category_constants example_styles).
  reflexivity.
Defined.

Lemma sample_aligned_witness :
  ∃ start t events progress_slice,
    0 ≤ start ≤ len [7; 258; 135; 5; 258; 133; 260] - 1 - 4 ∧ -4 ≤ t ≤ 4 ∧
    @sample example_constants example_processed 4 example_rng
    = inr ((events, LongTensor [1], progress_slice),
           rng_tail (rng_tail (rng_tail example_rng))) ∧
    events = LongTensor (@augmented example_constants t
               (@generator example_constants [7; 258; 135; 5; 258; 133; 260] 4
                  (Z.to_nat start))) ∧
    shape progress_slice = [Z.to_nat 4; @CATEGORY_LEVEL example_constants] ∧
    ∀ k, (k < Z.to_nat 4)%nat →
         tensor_row progress_slice k
         = tensor_row (FloatTensor 7 3 (@progress_array example_constants 7))
                      (Z.to_nat start + k).
Proof.
  apply (@sample_aligned example_constants (concat example_styles) [0; 1] _ 4
           example_rng).
  - reflexivity.
  - reflexivity.
  - reflexivity.
  - reflexivity.
  - unfold len. simpl. lia.
Defined.

Lemma sample_needs_longer_composition_witness :
  @sample example_constants example_corpus 20 example_rng = inl ValueError ∧
  ∀ batch_size, 1 ≤ batch_size →
    batcher (@sample example_constants example_corpus) batch_size 20 example_rng
    = inl ValueError.
Proof.
  apply (@sample_needs_longer_composition example_constants _ _ _ 20 example_rng
           (replicate 20 258)).
  - reflexivity.
  - unfold len. simpl. lia.
Defined.

Lemma loaded_corpus_of_minimal_length_witness :
  ∃ style_seqs data,
    load 4 [[Some example_composition]] = inr style_seqs ∧
    @process example_constants style_seqs = inr data ∧
    @sampler example_constants data = inr (@sample example_constants data) ∧
    ∀ g, @sample example_constants data 4 g = inl ValueError.
Proof.
  apply (@loaded_corpus_of_minimal_length example_constants 4
           [[Some example_composition]]).
  - simpl. lia.
  - discriminate.
  - repeat constructor. discriminate.
  - repeat constructor. intros sequence [= <-]. unfold len. simpl. lia.
Defined.

Lemma generator_copies_well_opened_slice_witness :
  @generator example_constants example_composition 4 0
  = slice example_composition (Some (Z.of_nat 0)) (Some (Z.of_nat 0 + 4)).
Proof.
  apply (@generator_copies_well_opened_slice example_constants
           example_composition 0 4).
  - lia.
  - unfold len. simpl. lia.
  - vm_compute. repeat split; intros note Hnote; try discriminate.
    injection Hnote as <-. vm_compute. reflexivity.
Defined.

Lemma generator_tracks_sounding_witness :
  ∃ fin n,
    @run example_constants example_composition 3
         (length example_composition + Z.to_nat 3) (gen_init 2)
    = Some (@generator example_constants example_composition 3 2, fin, n) ∧
    note_ons fin
    = @sounding example_constants
        (@generator example_constants example_composition 3 2).
Proof.
  apply (@generator_tracks_sounding example_constants example_composition 2 3).
  unfold contiguous_layout. simpl. lia.
Defined.

Lemma transpose_keeps_kind_in_range_witness :
  (@classify example_constants
     (@transpose_evt example_constants 4 (@encode example_constants (NoteOn 126)))
   = NoteOn (126 + 4) ↔ 126 + 4 < 128) ∧
  (128 ≤ 126 + 4 < 2 * 128 →
   @classify example_constants
     (@transpose_evt example_constants 4 (@encode example_constants (NoteOn 126)))
   = NoteOff (126 + 4 - 128)) ∧
  (@classify example_constants
     (@transpose_evt example_constants 4 (@encode example_constants (NoteOff 126)))
   = NoteOff (126 + 4) ↔ 0 ≤ 126 + 4 < 128) ∧
  (∀ bucket, 0 ≤ bucket →
     @transpose_evt example_constants 4
       (@encode example_constants (TimeShift bucket))
     = @encode example_constants (TimeShift bucket)).
Proof.
  apply (@transpose_keeps_kind_in_range example_constants 4 126).
  - unfold contiguous_layout. simpl. lia.
  - simpl. lia.
Defined.

Lemma augment_round_trip_witness :
  ∃ w',
    @augment example_constants [5; 258; 133]
      (rng_cons (3 + 4) (rng_cons (- 3 + 4) example_rng))
    = inr (w', rng_cons (- 3 + 4) example_rng) ∧
    w' = @augmented example_constants 3 [5; 258; 133] ∧
    @augment example_constants w' (rng_cons (- 3 + 4) example_rng)
    = inr ([5; 258; 133], example_rng).
Proof.
  apply (@augment_round_trip example_constants [5; 258; 133] 3 example_rng).
  - lia.
  - repeat constructor; simpl; lia.
Defined.

Lemma random_subseq_start_range_witness :
  (∀ g, @random_subseq example_constants example_composition 4 g
        = inl ValueError) ∧
  (∀ g, ∃ start,
     0 ≤ start ∧ start + 2 ≤ len example_composition - 1 ∧
     @random_subseq example_constants example_composition 2 g
     = inr ((@generator example_constants example_composition 2 (Z.to_nat start),
             start, start + 2), rng_tail g)).
Proof.
  split.
  - apply (proj1 (@random_subseq_start_range example_constants
                    example_composition 4)). unfold len. simpl. lia.
  - apply (proj2 (@random_subseq_start_range example_constants
                    example_composition 2)). unfold len. simpl. lia.
Defined.

Lemma validation_split_assertion_witness :
  validation_split example_corpus (float_literal (3 # 2)) example_rng
  = inl AssertionError ∧
  validation_split ([], [], []) (float_literal (1 # 20)) example_rng
  = inr ((([], [], []), ([], [], [])), example_rng) ∧
  validation_split example_corpus S754_nan example_rng = inl ValueError ∧
  validation_split ([], [], []) (S754_infinity false) example_rng
  = inl ValueError.
Proof.
  split_and!.
  - apply (proj1 (validation_split_assertion example_corpus
                    (float_literal (3 # 2)) example_rng)
             ltac:(simpl; lia) 2).
    + vm_compute. reflexivity.
    + vm_compute. intros [_ H]. by apply H.
  - apply (proj1 (proj2 (validation_split_assertion ([], [], [])
                           (float_literal (1 # 20)) example_rng))).
    + reflexivity.
    + vm_compute. reflexivity.
  - apply (proj1 (proj2 (proj2 (validation_split_assertion example_corpus
                                  S754_nan example_rng)))).
    vm_compute. reflexivity.
  - apply (proj2 (proj2 (proj2 (validation_split_assertion ([], [], [])
                                  (S754_infinity false) example_rng)))).
    + reflexivity.
    + reflexivity.
Defined.

Lemma progress_rows_one_hot_witness :
  ∃ t c, @progress_tensor example_constants example_composition = inr t ∧
         (c < 3)%nat ∧ tensor_row t 3 = @one_hot example_constants c.
Proof.
  apply (@progress_rows_one_hot example_constants example_composition 3).
  - simpl. lia.
  - simpl. lia.
  - left. vm_compute. discriminate.
Defined.

Lemma progress_rows_two_labels_witness :
  ∃ t c, @progress_tensor example_constants [5; 258; 133; 7; 263; 135] = inr t ∧
    (c < 3 - 1)%nat ∧
    tensor_row t 3 !! c = Some 1 ∧
    tensor_row t 3 !! (3 - 1)%nat = Some 1.
Proof.
  apply (@progress_rows_two_labels example_constants [5; 258; 133; 7; 263; 135] 3).
  - simpl. lia.
  - reflexivity.
  - vm_compute. reflexivity.
Defined.

Lemma progress_categories_monotone_witness :
  ∃ t c c',
    @progress_tensor example_constants [7; 258; 135; 5; 258; 133; 260] = inr t ∧
    tensor_row t 1 = @one_hot example_constants c ∧
    tensor_row t 6 = @one_hot example_constants c' ∧
    (c ≤ c')%nat ∧ (c' < 3)%nat ∧
    (6%nat = (length [7; 258; 135; 5; 258; 133; 260] - 1)%nat → c' = (3 - 1)%nat) ∧
    (1%nat = 0%nat → (3 ≤ length [7; 258; 135; 5; 258; 133; 260])%nat → c = 0%nat).
Proof.
  apply (@progress_categories_monotone example_constants
           [7; 258; 135; 5; 258; 133; 260] 1 6).
  - simpl. lia.
  - vm_compute. discriminate.
  - lia.
  - simpl. lia.
Defined.

Lemma progress_short_composition_witness :
  ∃ t, @progress_tensor example_constants [5; 258] = inr t ∧
       shape t = [length [5; 258]; 3%nat] ∧
       tensor_row t 0 = @one_hot example_constants (3 - 1).
Proof.
  apply (@progress_short_composition example_constants [5; 258] 0).
  - simpl. lia.
  - simpl. lia.
Defined.

Lemma batch_of_processed_corpus_witness :
  ∃ corpus events tags progress g',
    @process example_constants example_styles = inr corpus ∧
    @sampler example_constants corpus = inr (@sample example_constants corpus) ∧
    batcher (@sample example_constants corpus) 2 4 example_rng
    = inr ([events; tags; progress], g') ∧
    shape events = [Z.to_nat 2; Z.to_nat 4] ∧
    shape tags = [Z.to_nat 2; 1%nat] ∧
    shape progress = [Z.to_nat 2; Z.to_nat 4; 3%nat] ∧
    length (data tags) = Z.to_nat 2 ∧
    Forall (λ tag, 0 ≤ tag < len example_styles) (data tags).
Proof.
  apply (@batch_of_processed_corpus example_constants example_styles 2 4
           example_rng).
  - simpl. lia.
  - lia.
  - lia.
  - discriminate.
  - repeat constructor.
Defined.

Lemma causal_convolution_keeps_length_witness :
  get_output_shape_for (ConvLayer 32 2 Valid (2, 1) 4 true)
                       (Some 8, Some 16, Some 32)
  = inr (Some 8, Some ((16 + 2 - 1) / 2), 32) ∧
  get_output_shape_for (ConvLayer 32 2 Valid (1, 1) 4 true)
                       (Some 8, Some 16, Some 32)
  = inr (Some 8, Some 16, 32) ∧
  get_output_shape_for (ConvLayer 32 2 Valid (0, 1) 4 true)
                       (None, Some 16, Some 32)
  = inl ZeroDivisionError ∧
  get_output_shape_for (ConvLayer 32 2 Valid (1, 1) 4 true)
                       (None, None, Some 32)
  = inl TypeError.
Proof.
  split_and!.
  - apply (proj1 (proj2 (causal_convolution_keeps_length 32 2 Valid 2 4
             (ConvLayer 32 2 Valid (2, 1) 4 true) (Some 8) 16 (Some 32)
             eq_refl))).
    lia.
  - apply (proj1 (proj2 (proj2 (causal_convolution_keeps_length 32 2 Valid 1 4
             (ConvLayer 32 2 Valid (1, 1) 4 true) (Some 8) 16 (Some 32)
             eq_refl)))).
    reflexivity.
  - apply (proj1 (proj2 (proj2 (proj2 (causal_convolution_keeps_length
             32 2 Valid 0 4
             (ConvLayer 32 2 Valid (0, 1) 4 true) None 16 (Some 32)
             eq_refl))))).
    reflexivity.
  - apply (proj1 (proj2 (proj2 (proj2 (proj2 (causal_convolution_keeps_length
             32 2 Valid 1 4
             (ConvLayer 32 2 Valid (1, 1) 4 true) None 16 (Some 32)
             eq_refl)))))).
Defined.
